(** * Cadence: entitlement sets, supertype inference, condition order,
      storage references and the interpreter's error kinds

    A shallow embedding of the parts of the Cadence checker and interpreter
    that the specification's testable properties talk about.

    - [Interpreter]   : [StorageReferenceValue] (dereference, ReferencedValue,
                        mustReferencedValue, Equal) and the error kinds of
                        interpreter/errors.go.
    - [Sema]          : [EntitlementSet] (Add, AddDisjunction, Merge,
                        Minimize, Access).
    - [Conditions]    : linearisation of inherited pre/post conditions. *)

From Stdlib Require Import ZArith List Bool Lia.
From stdpp Require Import base gmap strings list.

Local Open Scope Z_scope.
Local Open Scope string_scope.
Local Open Scope list_scope.

(* ===================================================================== *)
(** * Interpreter: storage references                                     *)
(* ===================================================================== *)

Module Interpreter.

(** A Go function either returns or panics with an error value. *)
Inductive Result (E A : Type) : Type :=
| Returned (a : A)
| Panicked (e : E).
Arguments Returned {E A} a.
Arguments Panicked {E A} e.

(** common.Address is [8]byte; it is only compared and used as a key. *)
Definition Address := N.

(** StringStorageMapKey(identifier) *)
Definition StringStorageMapKey (identifier : string) : string := identifier.

Section StorageReference.

(** Types and operations of packages that are not part of the sources at
    hand (sema.Type, Authorization, StaticType, LocationRange,
    common.PathDomain and the values other than references).  They are
    parameters of the development. *)
Context {SemaType StaticType Authorization LocationRange OtherValue PathDomain : Type}.
Context `{EqDecision PathDomain}.

(** sema.Type.Equal(other Type): the argument is an interface value and may
    be nil. *)
Variable TypeEqual : SemaType -> option SemaType -> bool.
(** Authorization.Equal *)
Variable AuthorizationEqual : Authorization -> Authorization -> bool.
(** common.PathDomain.Identifier() *)
Variable PathDomainIdentifier : PathDomain -> string.

(** PathValue{Domain, Identifier}; compared with Go's [==]. *)
Record PathValue : Type := mkPathValue {
  Domain : PathDomain;
  Identifier : string
}.

#[local] Instance PathValue_eq_dec : EqDecision PathValue.
Proof. solve_decision. Defined.

(** type StorageReferenceValue struct *)
Record StorageReferenceValue : Type := mkStorageReferenceValue {
  BorrowedType : option SemaType;
  TargetPath : PathValue;
  TargetStorageAddress : Address;
  GetAuthorization : Authorization
}.

(** The runtime values.  [EphemeralReferenceValue] and
    [StorageReferenceValue] are the two implementations of the
    [ReferenceValue] interface; every other value is an [OtherValue]. *)
Inductive Value : Type :=
| NonReferenceValue (o : OtherValue)
| EphemeralReferenceValue (authorization : Authorization) (referent : Value)
                          (borrowedType : option SemaType)
| StorageReference (r : StorageReferenceValue).

(** The type assertion [referenced.(ReferenceValue)]. *)
Definition isReferenceValue (v : Value) : bool :=
  match v with
  | NonReferenceValue _ => false
  | EphemeralReferenceValue _ _ _ => true
  | StorageReference _ => true
  end.

(** The errors of interpreter/errors.go that dereferencing raises. *)
Inductive DerefError : Type :=
| NestedReferenceError (value : Value) (locationRange : LocationRange)
| ForceCastTypeMismatchError (ExpectedType ActualType : SemaType)
                             (locationRange : LocationRange)
| DereferenceError (Cause : string) (ExpectedType ActualType : option SemaType)
                   (locationRange : LocationRange).

(** Modelled from the spec: the storage collaborator, which is missing from
    the sources.  The specification gives it as
    [ReadStored(address, domain, key) -> Value|nil] and
    [WriteValue(address, domain, key, Value|nil)]; the interpreter's view of
    it is a finite map from (address, domain, key) to values. *)
Record Interpreter : Type := mkInterpreter {
  Storage : gmap (Address * string * string) Value
}.

Definition ReadStored (interpreter : Interpreter)
    (address : Address) (domain : string) (key : string) : option Value :=
  Storage interpreter !! (address, domain, key).

Definition WriteValue (interpreter : Interpreter)
    (address : Address) (domain : string) (key : string)
    (value : option Value) : Interpreter :=
  match value with
  | Some v => mkInterpreter (<[(address, domain, key) := v]> (Storage interpreter))
  | None => mkInterpreter (delete (address, domain, key) (Storage interpreter))
  end.

(** Value.StaticType(interpreter), Interpreter.IsSubTypeOfSemaType and
    Interpreter.MustConvertStaticToSemaType. *)
Variable StaticTypeOf : Interpreter -> Value -> StaticType.
Variable IsSubTypeOfSemaType : StaticType -> SemaType -> bool.
Variable MustConvertStaticToSemaType : StaticType -> SemaType.

(** [func (v *StorageReferenceValue) dereference]: returns a pointer to the
    value and an error, or panics. *)
Definition dereference (v : StorageReferenceValue) (interpreter : Interpreter)
    (locationRange : LocationRange)
  : Result DerefError (option Value * option DerefError) :=
  let address := TargetStorageAddress v in
  let domain := PathDomainIdentifier (Domain (TargetPath v)) in
  let identifier := Identifier (TargetPath v) in
  let storageMapKey := StringStorageMapKey identifier in
  match ReadStored interpreter address domain storageMapKey with
  | None => Returned (None, None)
  | Some referenced =>
      if isReferenceValue referenced then
        Panicked (NestedReferenceError referenced locationRange)
      else
        match BorrowedType v with
        | Some borrowedType =>
            let staticType := StaticTypeOf interpreter referenced in
            if negb (IsSubTypeOfSemaType staticType borrowedType) then
              let semaType := MustConvertStaticToSemaType staticType in
              Returned (None,
                        Some (ForceCastTypeMismatchError borrowedType semaType
                                                         locationRange))
            else Returned (Some referenced, None)
        | None => Returned (Some referenced, None)
        end
  end.

(** [func (v *StorageReferenceValue) ReferencedValue], with the flag
    [errorOnFailedDereference]. *)
Definition ReferencedValue (v : StorageReferenceValue)
    (interpreter : Interpreter) (locationRange : LocationRange)
    (errorOnFailedDereference : bool)
  : Result DerefError (option Value) :=
  match dereference v interpreter locationRange with
  | Panicked e => Panicked e
  | Returned (referencedValue, None) => Returned referencedValue
  | Returned (_, Some err) =>
      match err with
      | ForceCastTypeMismatchError expectedType actualType _ =>
          if errorOnFailedDereference then
            Panicked (DereferenceError EmptyString (Some expectedType) (Some actualType)
                                       locationRange)
          else Returned None
      | _ => Panicked err
      end
  end.

(** [func (v *StorageReferenceValue) mustReferencedValue] *)
Definition mustReferencedValue (v : StorageReferenceValue)
    (interpreter : Interpreter) (locationRange : LocationRange)
  : Result DerefError Value :=
  match ReferencedValue v interpreter locationRange true with
  | Panicked e => Panicked e
  | Returned None =>
      Panicked (DereferenceError "no value is stored at this path" None None
                                 locationRange)
  | Returned (Some referencedValue) => Returned referencedValue
  end.

(** [func (v *StorageReferenceValue) Equal]: the interpreter and the
    location range are ignored. *)
Definition Equal (v : StorageReferenceValue) (_ : Interpreter)
    (_ : LocationRange) (other : Value) : bool :=
  match other with
  | StorageReference otherReference =>
      if negb (bool_decide (TargetStorageAddress v = TargetStorageAddress otherReference))
         || negb (bool_decide (TargetPath v = TargetPath otherReference))
         || negb (AuthorizationEqual (GetAuthorization v)
                                     (GetAuthorization otherReference))
      then false
      else
        match BorrowedType v with
        | None =>
            match BorrowedType otherReference with
            | None => true
            | Some _ => false
            end
        | Some borrowedType => TypeEqual borrowedType (BorrowedType otherReference)
        end
  | _ => false
  end.

(** The storage key a reference resolves. *)
Definition targetKey (v : StorageReferenceValue) : Address * string * string :=
  (TargetStorageAddress v,
   PathDomainIdentifier (Domain (TargetPath v)),
   StringStorageMapKey (Identifier (TargetPath v))).

(** The borrowed-type check of [dereference] on a fetched value. *)
Definition borrowCheckPasses (v : StorageReferenceValue)
    (interpreter : Interpreter) (referenced : Value) : bool :=
  match BorrowedType v with
  | Some borrowedType =>
      IsSubTypeOfSemaType (StaticTypeOf interpreter referenced) borrowedType
  | None => true
  end.

(** ** Properties of dereferencing *)

Lemma ReadStored_WriteValue_same interpreter address domain key value :
  ReadStored (WriteValue interpreter address domain key value) address domain key
  = value.
Proof.
  unfold ReadStored, WriteValue. destruct value as [x|]; simpl.
  - apply lookup_insert_eq.
  - apply lookup_delete_eq.
Qed.

Lemma ReadStored_WriteValue_other interpreter a d k a' d' k' value :
  (a, d, k) <> (a', d', k') ->
  ReadStored (WriteValue interpreter a d k value) a' d' k'
  = ReadStored interpreter a' d' k'.
Proof.
  intros Hne. unfold ReadStored, WriteValue. destruct value as [x|]; simpl.
  - by apply lookup_insert_ne.
  - by apply lookup_delete_ne.
Qed.

(** What [dereference] does, by what is stored at the target. *)
Lemma dereference_unfold v interpreter locationRange :
  dereference v interpreter locationRange =
  match Storage interpreter !! targetKey v with
  | None => Returned (None, None)
  | Some referenced =>
      if isReferenceValue referenced then
        Panicked (NestedReferenceError referenced locationRange)
      else if borrowCheckPasses v interpreter referenced then
        Returned (Some referenced, None)
      else
        match BorrowedType v with
        | Some borrowedType =>
            Returned (None,
                      Some (ForceCastTypeMismatchError borrowedType
                              (MustConvertStaticToSemaType
                                 (StaticTypeOf interpreter referenced))
                              locationRange))
        | None => Returned (Some referenced, None)
        end
  end.
Proof.
  unfold dereference, ReadStored, targetKey, borrowCheckPasses.
  destruct (Storage interpreter !! _) as [referenced|]; [|reflexivity].
  destruct (isReferenceValue referenced); [reflexivity|].
  destruct (BorrowedType v) as [bt|]; [|reflexivity].
  destruct (IsSubTypeOfSemaType _ bt); reflexivity.
Qed.

(** C9: when the value stored at the target path of a storage reference is
    itself a reference value (ephemeral or storage), dereferencing panics
    with [NestedReferenceError] carrying that value; the panic passes
    unchanged through [ReferencedValue] (either flag) and
    [mustReferencedValue], whatever the borrowed type. *)
Theorem dereference_nested_reference_rejected
    (v : StorageReferenceValue) (interpreter : Interpreter)
    (locationRange : LocationRange) (reference : Value) :
  ReadStored interpreter (TargetStorageAddress v)
             (PathDomainIdentifier (Domain (TargetPath v)))
             (StringStorageMapKey (Identifier (TargetPath v))) = Some reference ->
  isReferenceValue reference = true ->
  dereference v interpreter locationRange
    = Panicked (NestedReferenceError reference locationRange)
  /\ (forall errorOnFailedDereference,
        ReferencedValue v interpreter locationRange errorOnFailedDereference
        = Panicked (NestedReferenceError reference locationRange))
  /\ mustReferencedValue v interpreter locationRange
     = Panicked (NestedReferenceError reference locationRange).
Proof.
  intros Hread Href.
  assert (Hd : dereference v interpreter locationRange
               = Panicked (NestedReferenceError reference locationRange)).
  { unfold dereference. rewrite Hread, Href. reflexivity. }
  split; [exact Hd|]. split.
  - intros b. unfold ReferencedValue. rewrite Hd. reflexivity.
  - unfold mustReferencedValue, ReferencedValue. rewrite Hd. reflexivity.
Qed.

(** C4: a storage reference re-resolves its target on every access.
    (1) After a value is written at the target (address, domain, path), the
    next dereference returns that value, whatever was stored or read before
    (the value being no reference and passing the borrowed-type check);
    (2) when nothing is stored, [dereference] returns nil without an error,
    [ReferencedValue] returns nil, and [mustReferencedValue] panics with a
    [DereferenceError] whose cause is "no value is stored at this path";
    (3) when a borrowed type is set and the static type of the stored
    (non-reference) value is no subtype of it, [dereference] returns a
    [ForceCastTypeMismatchError], which [ReferencedValue] with the flag set
    and [mustReferencedValue] turn into a [DereferenceError] with the same
    expected and actual types. *)
Theorem dereference_rereads_storage
    (v : StorageReferenceValue) (locationRange : LocationRange) :
  (forall interpreter newValue,
      let interpreter' :=
        WriteValue interpreter (TargetStorageAddress v)
                   (PathDomainIdentifier (Domain (TargetPath v)))
                   (StringStorageMapKey (Identifier (TargetPath v)))
                   (Some newValue) in
      isReferenceValue newValue = false ->
      borrowCheckPasses v interpreter' newValue = true ->
      dereference v interpreter' locationRange = Returned (Some newValue, None)
      /\ mustReferencedValue v interpreter' locationRange = Returned newValue)
  /\ (forall interpreter,
      ReadStored interpreter (TargetStorageAddress v)
                 (PathDomainIdentifier (Domain (TargetPath v)))
                 (StringStorageMapKey (Identifier (TargetPath v))) = None ->
      dereference v interpreter locationRange = Returned (None, None)
      /\ (forall flag, ReferencedValue v interpreter locationRange flag
                       = Returned None)
      /\ mustReferencedValue v interpreter locationRange
         = Panicked (DereferenceError "no value is stored at this path"
                                      None None locationRange))
  /\ (forall interpreter referenced borrowedType,
      ReadStored interpreter (TargetStorageAddress v)
                 (PathDomainIdentifier (Domain (TargetPath v)))
                 (StringStorageMapKey (Identifier (TargetPath v)))
        = Some referenced ->
      isReferenceValue referenced = false ->
      BorrowedType v = Some borrowedType ->
      IsSubTypeOfSemaType (StaticTypeOf interpreter referenced) borrowedType
        = false ->
      let actualType :=
        MustConvertStaticToSemaType (StaticTypeOf interpreter referenced) in
      dereference v interpreter locationRange
        = Returned (None, Some (ForceCastTypeMismatchError
                                  borrowedType actualType locationRange))
      /\ ReferencedValue v interpreter locationRange true
         = Panicked (DereferenceError EmptyString (Some borrowedType)
                                      (Some actualType) locationRange)
      /\ mustReferencedValue v interpreter locationRange
         = Panicked (DereferenceError EmptyString (Some borrowedType)
                                      (Some actualType) locationRange)).
Proof.
  split; [|split].
  - intros interpreter newValue interpreter' Hnoref Hcheck.
    assert (Hd : dereference v interpreter' locationRange
                 = Returned (Some newValue, None)).
    { rewrite dereference_unfold.
      replace (Storage interpreter' !! targetKey v) with (Some newValue).
      - rewrite Hnoref, Hcheck. reflexivity.
      - symmetry. apply (ReadStored_WriteValue_same interpreter _ _ _ (Some newValue)). }
    split; [exact Hd|].
    unfold mustReferencedValue, ReferencedValue. rewrite Hd. reflexivity.
  - intros interpreter Hread.
    assert (Hd : dereference v interpreter locationRange = Returned (None, None)).
    { unfold dereference. rewrite Hread. reflexivity. }
    split; [exact Hd|]. split.
    + intros flag. unfold ReferencedValue. rewrite Hd. reflexivity.
    + unfold mustReferencedValue, ReferencedValue. rewrite Hd. reflexivity.
  - intros interpreter referenced borrowedType Hread Hnoref Hbt Hsub actualType.
    assert (Hd : dereference v interpreter locationRange
                 = Returned (None, Some (ForceCastTypeMismatchError
                                           borrowedType actualType locationRange))).
    { unfold dereference. rewrite Hread, Hnoref, Hbt. simpl. rewrite Hsub.
      reflexivity. }
    split; [exact Hd|]. split.
    + unfold ReferencedValue. rewrite Hd. reflexivity.
    + unfold mustReferencedValue, ReferencedValue. rewrite Hd. reflexivity.
Qed.

(** ** Equality of storage references *)

(** [Equal] spelled out, with no assumption on [TypeEqual]. *)
Lemma Equal_unfold v interpreter locationRange otherReference :
  Equal v interpreter locationRange (StorageReference otherReference) = true <->
  TargetStorageAddress v = TargetStorageAddress otherReference
  /\ TargetPath v = TargetPath otherReference
  /\ AuthorizationEqual (GetAuthorization v) (GetAuthorization otherReference) = true
  /\ match BorrowedType v with
     | None => BorrowedType otherReference = None
     | Some borrowedType =>
         TypeEqual borrowedType (BorrowedType otherReference) = true
     end.
Proof.
  unfold Equal.
  destruct (decide (TargetStorageAddress v = TargetStorageAddress otherReference)) as [Ha|Ha].
  2:{ rewrite bool_decide_eq_false_2 by exact Ha. simpl.
      split; [discriminate | intros (? & _); contradiction]. }
  rewrite bool_decide_eq_true_2 by exact Ha.
  destruct (decide (TargetPath v = TargetPath otherReference)) as [Hp|Hp].
  2:{ rewrite bool_decide_eq_false_2 by exact Hp. simpl.
      split; [discriminate | intros (_ & ? & _); contradiction]. }
  rewrite bool_decide_eq_true_2 by exact Hp. simpl.
  destruct (AuthorizationEqual _ _); simpl.
  2:{ split; [discriminate | intros (_ & _ & ? & _); discriminate]. }
  destruct (BorrowedType v) as [bt|].
  - split; [intros ->; auto | intros (_ & _ & _ & ?); assumption].
  - destruct (BorrowedType otherReference).
    + split; [discriminate | intros (_ & _ & _ & ?); discriminate].
    + split; auto.
Qed.

(** sema.Type.Equal answers false on a nil argument (every implementation
    starts with a type assertion or a pointer comparison). *)
Hypothesis TypeEqual_nil : forall t, TypeEqual t None = false.

(** C10: [Equal] on a storage reference and any value is true exactly when
    the other value is a storage reference with the same target address,
    the same target path, an equal authorization, and an equal borrowed
    type (both nil, or both set and equal by Type.Equal); the answer does
    not depend on the interpreter (hence not on what is stored) nor on the
    location range. *)
Theorem Equal_iff_same_fields
    (v : StorageReferenceValue) (interpreter : Interpreter)
    (locationRange : LocationRange) (other : Value) :
  (Equal v interpreter locationRange other = true <->
   exists otherReference,
     other = StorageReference otherReference
     /\ TargetStorageAddress v = TargetStorageAddress otherReference
     /\ TargetPath v = TargetPath otherReference
     /\ AuthorizationEqual (GetAuthorization v)
                           (GetAuthorization otherReference) = true
     /\ match BorrowedType v, BorrowedType otherReference with
        | None, None => True
        | Some t, Some t' => TypeEqual t (Some t') = true
        | _, _ => False
        end)
  /\ (forall interpreter' locationRange',
        Equal v interpreter' locationRange' other
        = Equal v interpreter locationRange other).
Proof.
  split; [|reflexivity].
  destruct other as [o|a r b|otherReference].
  - simpl. split; [discriminate | intros (? & ? & _); discriminate].
  - simpl. split; [discriminate | intros (? & ? & _); discriminate].
  - rewrite Equal_unfold. split.
    + intros (Ha & Hp & Hau & Hb). exists otherReference.
      repeat split; try assumption.
      destruct (BorrowedType v) as [t|], (BorrowedType otherReference) as [t'|];
        try exact I; try assumption; try discriminate.
      rewrite TypeEqual_nil in Hb. discriminate.
    + intros (r & Heq & Ha & Hp & Hau & Hb). injection Heq as <-.
      repeat split; try assumption.
      destruct (BorrowedType v) as [t|], (BorrowedType otherReference) as [t'|];
        try assumption; try reflexivity; contradiction.
Qed.

(** ** Further methods of [StorageReferenceValue] *)

(** What is stored at the target of a reference. *)
Definition readTarget (v : StorageReferenceValue) (interpreter : Interpreter)
  : option Value :=
  ReadStored interpreter (TargetStorageAddress v)
             (PathDomainIdentifier (Domain (TargetPath v)))
             (StringStorageMapKey (Identifier (TargetPath v))).

(** [ReferencedValue] with [errorOnFailedDereference] unset is the soft
    dereference: its only panic is the nested-reference one; it returns nil
    exactly when nothing is stored or the stored value fails the
    borrowed-type check, and the stored value exactly when that value is no
    reference and passes the check.  Where one flag returns a value, so does
    the other. *)
Theorem ReferencedValue_soft_dereference
    (v : StorageReferenceValue) (interpreter : Interpreter)
    (locationRange : LocationRange) :
  (forall e,
      ReferencedValue v interpreter locationRange false = Panicked e <->
      exists reference,
        readTarget v interpreter = Some reference
        /\ isReferenceValue reference = true
        /\ e = NestedReferenceError reference locationRange)
  /\ (ReferencedValue v interpreter locationRange false = Returned None <->
      readTarget v interpreter = None
      \/ exists referenced,
           readTarget v interpreter = Some referenced
           /\ isReferenceValue referenced = false
           /\ borrowCheckPasses v interpreter referenced = false)
  /\ (forall referenced,
      ReferencedValue v interpreter locationRange false = Returned (Some referenced) <->
      readTarget v interpreter = Some referenced
      /\ isReferenceValue referenced = false
      /\ borrowCheckPasses v interpreter referenced = true)
  /\ (forall referenced,
      ReferencedValue v interpreter locationRange true = Returned (Some referenced) <->
      ReferencedValue v interpreter locationRange false = Returned (Some referenced)).
Proof.
  unfold ReferencedValue, readTarget, ReadStored. rewrite dereference_unfold.
  fold (targetKey v).
  destruct (Storage interpreter !! targetKey v) as [x|] eqn:Hx.
  2:{ repeat split; try discriminate; auto.
      all: try (intros (? & ? & _); discriminate).
      all: intros (? & _); discriminate. }
  destruct (isReferenceValue x) eqn:Href.
  { split; [|split; [|split]].
    - intros e. split.
      + intros [= <-]. exists x. auto.
      + intros (r & [= <-] & _ & ->). reflexivity.
    - split; [discriminate|].
      intros [? | (r & [= <-] & Hr & _)]; [discriminate | congruence].
    - intros r. split; [discriminate|]. intros ([= <-] & Hr & _). congruence.
    - intros r. split; discriminate. }
  destruct (borrowCheckPasses v interpreter x) eqn:Hcheck.
  { split; [|split; [|split]].
    - intros e. split; [discriminate|]. intros (r & [= <-] & Hr & _). congruence.
    - split; [discriminate|].
      intros [? | (r & [= <-] & _ & Hr)]; [discriminate | congruence].
    - intros r. split.
      + intros [= <-]. auto.
      + intros ([= <-] & _). reflexivity.
    - intros r. reflexivity. }
  pose proof Hcheck as Hcheck'. unfold borrowCheckPasses in Hcheck'.
  destruct (BorrowedType v) as [bt|]; [|discriminate].
  split; [|split; [|split]].
  - intros e. split; [discriminate|]. intros (r & [= <-] & Hr & _). congruence.
  - split; [|reflexivity]. intros _. right. exists x. auto.
  - intros r. split; [discriminate|].
    intros ([= <-] & _ & Hr). congruence.
  - intros r. split; discriminate.
Qed.

(** A storage reference observes the writes to its own target and no
    others: after the value at its target is removed it dereferences to nil
    ([mustReferencedValue] fails with the "no value is stored at this path"
    error), and a write to any other address, domain or identifier leaves
    its dereference as it was (the static types of values not depending on
    that write). *)
Theorem dereference_observes_only_its_target
    (v : StorageReferenceValue) (interpreter : Interpreter)
    (locationRange : LocationRange) :
  (let removed :=
     WriteValue interpreter (TargetStorageAddress v)
                (PathDomainIdentifier (Domain (TargetPath v)))
                (StringStorageMapKey (Identifier (TargetPath v))) None in
   dereference v removed locationRange = Returned (None, None)
   /\ mustReferencedValue v removed locationRange
      = Panicked (DereferenceError "no value is stored at this path" None None
                                   locationRange))
  /\ (forall address domain key value,
        (address, domain, key) <> targetKey v ->
        (forall referenced,
            StaticTypeOf (WriteValue interpreter address domain key value) referenced
            = StaticTypeOf interpreter referenced) ->
        dereference v (WriteValue interpreter address domain key value) locationRange
        = dereference v interpreter locationRange).
Proof.
  split.
  - cbv zeta.
    assert (Hd : dereference v
                   (WriteValue interpreter (TargetStorageAddress v)
                      (PathDomainIdentifier (Domain (TargetPath v)))
                      (StringStorageMapKey (Identifier (TargetPath v))) None)
                   locationRange = Returned (None, None)).
    { unfold dereference. rewrite ReadStored_WriteValue_same. reflexivity. }
    split; [exact Hd|].
    unfold mustReferencedValue, ReferencedValue. rewrite Hd. reflexivity.
  - intros address domain key value Hne Hstatic.
    unfold dereference.
    rewrite (ReadStored_WriteValue_other interpreter address domain key
               (TargetStorageAddress v)
               (PathDomainIdentifier (Domain (TargetPath v)))
               (StringStorageMapKey (Identifier (TargetPath v))) value Hne).
    destruct (ReadStored interpreter _ _ _) as [referenced|]; [|reflexivity].
    rewrite Hstatic. reflexivity.
Qed.

(** A panic of Go code: an error value passed to [panic], or the runtime
    error of dereferencing a nil pointer. *)
Inductive GoPanic : Type :=
| PanicValue (e : DerefError)
| NilPointerDereference.

(** interpreter.EmptyLocationRange and interpreter.NewReferenceStaticType *)
Variable EmptyLocationRange : LocationRange.
Variable NewReferenceStaticType : Authorization -> StaticType -> StaticType.

(** [func (v *StorageReferenceValue) StaticType]: panics with the error of
    [dereference], and dereferences the returned pointer unchecked. *)
Definition referenceStaticType (v : StorageReferenceValue) (inter : Interpreter)
  : Result GoPanic StaticType :=
  match dereference v inter EmptyLocationRange with
  | Panicked e => Panicked (PanicValue e)
  | Returned (_, Some err) => Panicked (PanicValue err)
  | Returned (None, None) => Panicked NilPointerDereference
  | Returned (Some self, None) =>
      Returned (NewReferenceStaticType (GetAuthorization v) (StaticTypeOf inter self))
  end.

(** [StaticType] of a storage reference answers exactly when
    [mustReferencedValue] does, with the
    reference's own authorization around the static type of the stored
    value.  Where [mustReferencedValue] raises a [DereferenceError],
    [StaticType] does not: on an empty target it hits a nil pointer, and on
    a borrowed-type mismatch it panics with the bare
    [ForceCastTypeMismatchError]. *)
Theorem StaticType_of_storage_reference
    (v : StorageReferenceValue) (inter : Interpreter) :
  (forall self,
      mustReferencedValue v inter EmptyLocationRange = Returned self ->
      referenceStaticType v inter
      = Returned (NewReferenceStaticType (GetAuthorization v)
                                         (StaticTypeOf inter self)))
  /\ (forall staticType,
      referenceStaticType v inter = Returned staticType ->
      exists self, mustReferencedValue v inter EmptyLocationRange = Returned self)
  /\ (readTarget v inter = None ->
      referenceStaticType v inter = Panicked NilPointerDereference)
  /\ (forall referenced borrowedType,
      readTarget v inter = Some referenced ->
      isReferenceValue referenced = false ->
      BorrowedType v = Some borrowedType ->
      IsSubTypeOfSemaType (StaticTypeOf inter referenced) borrowedType = false ->
      referenceStaticType v inter
      = Panicked (PanicValue
                    (ForceCastTypeMismatchError
                       borrowedType
                       (MustConvertStaticToSemaType (StaticTypeOf inter referenced))
                       EmptyLocationRange))).
Proof.
  unfold referenceStaticType, mustReferencedValue, ReferencedValue, readTarget.
  split; [|split; [|split]].
  - intros self.
    destruct (dereference v inter EmptyLocationRange) as [[[x|] [err|]]|e];
      try discriminate; try (destruct err; discriminate).
    intros [= <-]. reflexivity.
  - intros staticType.
    destruct (dereference v inter EmptyLocationRange) as [[[x|] [err|]]|e];
      try discriminate.
    intros _. exists x. reflexivity.
  - intros Hread. unfold dereference. rewrite Hread. reflexivity.
  - intros referenced borrowedType Hread Hnoref Hbt Hsub.
    unfold dereference. rewrite Hread, Hnoref, Hbt. simpl. rewrite Hsub.
    reflexivity.
Qed.

(** Interpreter.IsSubTypeOfSemaType on a nil sema type (the borrowed type of
    a reference may be nil), and Value.ConformsToStaticType of the stored
    value. *)
Variable IsSubTypeOfNilSemaType : StaticType -> bool.
Variable ValueConformsToStaticType : Interpreter -> Value -> bool.

(** [func (v *StorageReferenceValue) ConformsToStaticType] *)
Definition ConformsToStaticType (v : StorageReferenceValue)
    (interpreter : Interpreter) (locationRange : LocationRange)
  : Result DerefError bool :=
  match dereference v interpreter locationRange with
  | Panicked e => Panicked e
  | Returned (Some self, None) =>
      let staticType := StaticTypeOf interpreter self in
      if negb (match BorrowedType v with
               | Some borrowedType => IsSubTypeOfSemaType staticType borrowedType
               | None => IsSubTypeOfNilSemaType staticType
               end)
      then Returned false
      else Returned (ValueConformsToStaticType interpreter self)
  | Returned (_, _) => Returned false
  end.

(** A storage reference conforms to its static type only if a value is
    stored at its target, that value is no reference, its static type is a
    subtype of the borrowed type (of nil when there is none), and the value
    itself conforms.  An empty target and a borrowed-type mismatch give
    false, not an error; the only panic is the nested-reference one. *)
Theorem ConformsToStaticType_sound
    (v : StorageReferenceValue) (interpreter : Interpreter)
    (locationRange : LocationRange) :
  (ConformsToStaticType v interpreter locationRange = Returned true <->
   exists self,
     readTarget v interpreter = Some self
     /\ isReferenceValue self = false
     /\ match BorrowedType v with
        | Some borrowedType =>
            IsSubTypeOfSemaType (StaticTypeOf interpreter self) borrowedType = true
        | None => IsSubTypeOfNilSemaType (StaticTypeOf interpreter self) = true
        end
     /\ ValueConformsToStaticType interpreter self = true)
  /\ (readTarget v interpreter = None ->
      ConformsToStaticType v interpreter locationRange = Returned false)
  /\ (forall self,
      readTarget v interpreter = Some self ->
      isReferenceValue self = false ->
      borrowCheckPasses v interpreter self = false ->
      ConformsToStaticType v interpreter locationRange = Returned false)
  /\ (forall e,
      ConformsToStaticType v interpreter locationRange = Panicked e ->
      exists reference,
        readTarget v interpreter = Some reference
        /\ isReferenceValue reference = true
        /\ e = NestedReferenceError reference locationRange).
Proof.
  unfold ConformsToStaticType, readTarget, ReadStored, borrowCheckPasses.
  rewrite dereference_unfold. fold (targetKey v). unfold borrowCheckPasses.
  destruct (Storage interpreter !! targetKey v) as [x|] eqn:Hx.
  2:{ repeat split; try discriminate; auto. intros (? & ? & _). discriminate. }
  destruct (isReferenceValue x) eqn:Href.
  { split; [|split; [|split]].
    - split; [discriminate|]. intros (s & [= <-] & Hs & _). congruence.
    - discriminate.
    - intros s [= <-] Hs. congruence.
    - intros e [= <-]. exists x. auto. }
  destruct (BorrowedType v) as [bt|].
  - destruct (IsSubTypeOfSemaType (StaticTypeOf interpreter x) bt) eqn:Hsub; simpl.
    + rewrite Hsub. simpl. split; [|split; [|split]].
      * split.
        -- intros [= Hc]. exists x. auto.
        -- intros (s & [= <-] & _ & _ & Hc). rewrite Hc. reflexivity.
      * discriminate.
      * intros s [= <-] _ Hs. congruence.
      * discriminate.
    + split; [|split; [|split]].
      * split; [discriminate|]. intros (s & [= <-] & _ & Hs & _). congruence.
      * discriminate.
      * reflexivity.
      * discriminate.
  - simpl.
    destruct (IsSubTypeOfNilSemaType (StaticTypeOf interpreter x)) eqn:Hsub; simpl.
    + split; [|split; [|split]].
      * split.
        -- intros [= Hc]. exists x. auto.
        -- intros (s & [= <-] & _ & _ & Hc). rewrite Hc. reflexivity.
      * discriminate.
      * intros s _ _ Hs. discriminate.
      * discriminate.
    + split; [|split; [|split]].
      * split; [discriminate|]. intros (s & [= <-] & _ & Hs & _). congruence.
      * discriminate.
      * reflexivity.
      * discriminate.
Qed.

(** [NewUnmeteredStorageReferenceValue] and [Clone] *)
Definition NewUnmeteredStorageReferenceValue (authorization : Authorization)
    (targetStorageAddress : Address) (targetPath : PathValue)
    (borrowedType : option SemaType) : StorageReferenceValue :=
  mkStorageReferenceValue borrowedType targetPath targetStorageAddress authorization.

Definition Clone (v : StorageReferenceValue) : StorageReferenceValue :=
  NewUnmeteredStorageReferenceValue (GetAuthorization v) (TargetStorageAddress v)
                                    (TargetPath v) (BorrowedType v).

(** When Authorization.Equal and Type.Equal are equivalences (and
    Type.Equal rejects nil), [Equal] is an equivalence on storage
    references: a reference equals itself and its clone, the comparison can
    be turned around, and it is transitive. *)
Theorem Equal_is_equivalence :
  (forall t, TypeEqual t None = false) ->
  (forall a, AuthorizationEqual a a = true) ->
  (forall a b, AuthorizationEqual a b = true -> AuthorizationEqual b a = true) ->
  (forall a b c, AuthorizationEqual a b = true -> AuthorizationEqual b c = true ->
                 AuthorizationEqual a c = true) ->
  (forall t, TypeEqual t (Some t) = true) ->
  (forall t u, TypeEqual t (Some u) = true -> TypeEqual u (Some t) = true) ->
  (forall t u w, TypeEqual t (Some u) = true -> TypeEqual u (Some w) = true ->
                 TypeEqual t (Some w) = true) ->
  forall (interpreter : Interpreter) (locationRange : LocationRange)
         (v1 v2 v3 : StorageReferenceValue),
    Equal v1 interpreter locationRange (StorageReference v1) = true
    /\ Equal v1 interpreter locationRange (StorageReference (Clone v1)) = true
    /\ (Equal v1 interpreter locationRange (StorageReference v2) = true ->
        Equal v2 interpreter locationRange (StorageReference v1) = true)
    /\ (Equal v1 interpreter locationRange (StorageReference v2) = true ->
        Equal v2 interpreter locationRange (StorageReference v3) = true ->
        Equal v1 interpreter locationRange (StorageReference v3) = true).
Proof.
  intros Hnil Arefl Asym Atrans Trefl Tsym Ttrans interpreter locationRange v1 v2 v3.
  rewrite !Equal_unfold. split; [|split; [|split]].
  - repeat split; [apply Arefl|]. destruct (BorrowedType v1); [apply Trefl|reflexivity].
  - simpl. repeat split; [apply Arefl|].
    destruct (BorrowedType v1); [apply Trefl|reflexivity].
  - intros (Ha & Hp & Hau & Hb). repeat split; [congruence|congruence|by apply Asym|].
    destruct (BorrowedType v1) as [t|], (BorrowedType v2) as [u|];
      try reflexivity; try discriminate.
    + by apply Tsym.
    + rewrite Hnil in Hb. discriminate.
  - intros (Ha & Hp & Hau & Hb) (Ha' & Hp' & Hau' & Hb').
    repeat split; [congruence|congruence|by eapply Atrans|].
    destruct (BorrowedType v1) as [t|], (BorrowedType v2) as [u|],
             (BorrowedType v3) as [w|];
      try reflexivity; try discriminate; try assumption;
      try (rewrite Hnil in Hb; discriminate);
      try (rewrite Hnil in Hb'; discriminate).
    by eapply Ttrans.
Qed.

(** sema.ErrorMessageExpectedActualTypes, which renders the two types of a
    mismatch. *)
Variable ErrorMessageExpectedActualTypes :
  option SemaType -> option SemaType -> string * string.

(** [func (e DereferenceError) SecondaryError]; the other two kinds have no
    such method. *)
Definition SecondaryError (e : DerefError) : option string :=
  match e with
  | DereferenceError Cause ExpectedType ActualType _ =>
      Some (if negb (bool_decide (Cause = EmptyString)) then Cause
            else
              let '(expected, actual) :=
                ErrorMessageExpectedActualTypes ExpectedType ActualType in
              String.append "type mismatch: expected `"
                (String.append expected
                   (String.append "`, got `" (String.append actual "`"))))
  | _ => None
  end.

(** [mustReferencedValue] fails in exactly three ways: the stored value is
    a reference (the nested-reference panic, which has no secondary
    message); nothing is stored (secondary message "no value is stored at
    this path"); or the stored value fails the borrowed-type check
    (secondary message "type mismatch: expected `B`, got `A`" with the
    borrowed type and the converted static type of the stored value). *)
Theorem mustReferencedValue_failures
    (v : StorageReferenceValue) (interpreter : Interpreter)
    (locationRange : LocationRange) (e : DerefError) :
  mustReferencedValue v interpreter locationRange = Panicked e <->
  (exists reference,
      readTarget v interpreter = Some reference
      /\ isReferenceValue reference = true
      /\ e = NestedReferenceError reference locationRange
      /\ SecondaryError e = None)
  \/ (readTarget v interpreter = None
      /\ e = DereferenceError "no value is stored at this path" None None
                              locationRange
      /\ SecondaryError e = Some "no value is stored at this path")
  \/ (exists referenced borrowedType,
      readTarget v interpreter = Some referenced
      /\ isReferenceValue referenced = false
      /\ BorrowedType v = Some borrowedType
      /\ IsSubTypeOfSemaType (StaticTypeOf interpreter referenced) borrowedType
         = false
      /\ let actualType :=
           MustConvertStaticToSemaType (StaticTypeOf interpreter referenced) in
         e = DereferenceError EmptyString (Some borrowedType) (Some actualType)
                              locationRange
         /\ SecondaryError e
            = Some (let '(expected, actual) :=
                      ErrorMessageExpectedActualTypes (Some borrowedType)
                                                      (Some actualType) in
                    String.append "type mismatch: expected `"
                      (String.append expected
                         (String.append "`, got `" (String.append actual "`"))))).
Proof.
  unfold mustReferencedValue, ReferencedValue, readTarget. unfold dereference.
  destruct (ReadStored interpreter _ _ _) as [x|] eqn:Hx.
  2:{ split.
      - intros [= <-]. right. left. auto.
      - intros [(? & ? & _) | [(_ & -> & _) | (? & ? & ? & _)]];
          try discriminate. reflexivity. }
  destruct (isReferenceValue x) eqn:Href.
  { split.
    - intros [= <-]. left. exists x. auto.
    - intros [(r & [= <-] & _ & -> & _) | [(? & _) | (r & bt & [= <-] & Hr & _)]];
        try discriminate; [reflexivity | congruence]. }
  destruct (BorrowedType v) as [bt|] eqn:Hbt.
  2:{ split; [discriminate|].
      intros [(r & [= <-] & Hr & _) | [(? & _) | (r & bt & _ & _ & ? & _)]];
        try discriminate; congruence. }
  destruct (IsSubTypeOfSemaType (StaticTypeOf interpreter x) bt) eqn:Hsub; simpl.
  - split; [discriminate|].
    intros [(r & [= <-] & Hr & _) | [(? & _) | (r & bt' & [= <-] & _ & [= <-] & Hs & _)]];
      try discriminate; congruence.
  - split.
    + intros [= <-]. right. right. exists x, bt. simpl. auto 10.
    + intros [(r & [= <-] & Hr & _) | [(? & _) | (r & bt' & [= <-] & _ & [= <-] & _ & -> & _)]];
        try discriminate; [congruence | reflexivity].
Qed.

End StorageReference.

(** ** A concrete instance

    Types are given by their identifiers, a non-reference value by the
    identifier of its static type, authorizations by a list of entitlement
    identifiers, and subtyping by equality of identifiers. *)

Inductive PathDomain : Type :=
| PathDomainStorage
| PathDomainPrivate
| PathDomainPublic.

#[local] Instance PathDomain_eq_dec : EqDecision PathDomain.
Proof. solve_decision. Defined.

Definition pathDomainIdentifier (d : PathDomain) : string :=
  match d with
  | PathDomainStorage => "storage"
  | PathDomainPrivate => "private"
  | PathDomainPublic => "public"
  end.

Definition typeIDEqual (t : string) (other : option string) : bool :=
  match other with
  | Some t' => bool_decide (t = t')
  | None => false
  end.

Definition authorizationIDsEqual (a b : list string) : bool :=
  bool_decide (a = b).

Definition SampleValue : Type :=
  @Value string (list string) string PathDomain.

Definition SampleInterpreter : Type :=
  @Interpreter string (list string) string PathDomain.

Definition sampleStaticType (_ : SampleInterpreter) (v : SampleValue) : string :=
  match v with
  | NonReferenceValue o => o
  | _ => "Reference"
  end.

Definition isSubTypeByID (staticType semaType : string) : bool :=
  bool_decide (staticType = semaType).

Definition vaultPath : @PathValue PathDomain :=
  mkPathValue PathDomainStorage "vault".

(** A reference [&Vault] to /storage/vault of account 0x1. *)
Definition vaultReference : @StorageReferenceValue string (list string) PathDomain :=
  mkStorageReferenceValue (Some "Vault") vaultPath 1%N [].

(** The same reference without a borrowed type. *)
Definition untypedVaultReference
  : @StorageReferenceValue string (list string) PathDomain :=
  mkStorageReferenceValue None vaultPath 1%N [].

Definition emptyStorage : SampleInterpreter := mkInterpreter ∅.

Definition storageWith (v : SampleValue) : SampleInterpreter :=
  WriteValue emptyStorage 1%N "storage" "vault" (Some v).

Definition sampleDereference :=
  @dereference string string (list string) nat string PathDomain
               pathDomainIdentifier sampleStaticType isSubTypeByID id.

Definition sampleMustReferencedValue :=
  @mustReferencedValue string string (list string) nat string PathDomain
               pathDomainIdentifier sampleStaticType isSubTypeByID id.

Definition sampleEqual :=
  @Equal string (list string) nat string PathDomain PathDomain_eq_dec
         typeIDEqual authorizationIDsEqual.

(** An ephemeral reference stored (against the rules) at /storage/vault is
    rejected when the storage reference is dereferenced. *)
Lemma dereference_nested_reference_rejected_witness :
  sampleDereference vaultReference
    (storageWith (EphemeralReferenceValue [] (NonReferenceValue "Vault") None)) 7%nat
  = Panicked (NestedReferenceError
                (EphemeralReferenceValue [] (NonReferenceValue "Vault") None) 7%nat).
Proof.
  apply (dereference_nested_reference_rejected
           pathDomainIdentifier sampleStaticType isSubTypeByID id
           vaultReference
           (storageWith (EphemeralReferenceValue [] (NonReferenceValue "Vault") None))
           7%nat
           (EphemeralReferenceValue [] (NonReferenceValue "Vault") None)).
  - vm_compute. reflexivity.
  - reflexivity.
Defined.

(** A vault is stored, read, replaced by another vault, and read again;
    then a value of another type is stored; and nothing at all. *)
Lemma dereference_rereads_storage_witness :
  (sampleDereference untypedVaultReference
     (WriteValue (storageWith (NonReferenceValue "OldVault")) 1%N "storage" "vault"
                 (Some (NonReferenceValue "NewVault"))) 7%nat
   = Returned (Some (NonReferenceValue "NewVault"), None))
  /\ sampleMustReferencedValue vaultReference emptyStorage 7%nat
     = Panicked (DereferenceError "no value is stored at this path" None None 7%nat)
  /\ sampleMustReferencedValue vaultReference
       (storageWith (NonReferenceValue "Token")) 7%nat
     = Panicked (DereferenceError EmptyString (Some "Vault") (Some "Token") 7%nat).
Proof.
  pose proof (dereference_rereads_storage
                pathDomainIdentifier sampleStaticType isSubTypeByID id
                untypedVaultReference 7%nat) as (Hwrite & _ & _).
  pose proof (dereference_rereads_storage
                pathDomainIdentifier sampleStaticType isSubTypeByID id
                vaultReference 7%nat) as (_ & Hnil & Hmismatch).
  split; [|split].
  - apply (Hwrite (storageWith (NonReferenceValue "OldVault"))
                  (NonReferenceValue "NewVault")); reflexivity.
  - apply (Hnil emptyStorage). reflexivity.
  - apply (Hmismatch (storageWith (NonReferenceValue "Token"))
                     (NonReferenceValue "Token") "Vault");
      vm_compute; reflexivity.
Defined.

(** Two references to the same path are equal although nothing is stored
    there. *)
Lemma Equal_iff_same_fields_witness :
  (forall t, typeIDEqual t None = false)
  /\ sampleEqual vaultReference emptyStorage 7%nat (StorageReference vaultReference)
     = true.
Proof.
  split; [reflexivity|].
  apply (proj1 (Equal_iff_same_fields typeIDEqual authorizationIDsEqual
                  (fun t => eq_refl) vaultReference emptyStorage 7%nat
                  (StorageReference vaultReference))).
  exists vaultReference. vm_compute. repeat split.
Defined.

(** Equality of identifiers is an equivalence, so a clone of the vault
    reference compares equal to it. *)
Lemma Equal_is_equivalence_witness :
  sampleEqual vaultReference emptyStorage 7%nat
              (StorageReference (Clone vaultReference)) = true
  /\ sampleEqual (Clone vaultReference) emptyStorage 7%nat
                 (StorageReference vaultReference) = true.
Proof.
  assert (Hauth : forall a b : list string,
             authorizationIDsEqual a b = true <-> a = b)
    by (intros a b; apply bool_decide_eq_true).
  assert (Htype : forall t u : string, typeIDEqual t (Some u) = true <-> t = u)
    by (intros t u; apply bool_decide_eq_true).
  pose proof (Equal_is_equivalence typeIDEqual authorizationIDsEqual
                (fun t => eq_refl)
                (fun a => proj2 (Hauth a a) eq_refl)
                (fun a b Hab => proj2 (Hauth b a) (eq_sym (proj1 (Hauth a b) Hab)))
                (fun a b c Hab Hbc =>
                   proj2 (Hauth a c)
                         (eq_trans (proj1 (Hauth a b) Hab) (proj1 (Hauth b c) Hbc)))
                (fun t => proj2 (Htype t t) eq_refl)
                (fun t u Htu => proj2 (Htype u t) (eq_sym (proj1 (Htype t u) Htu)))
                (fun t u w Htu Huw =>
                   proj2 (Htype t w)
                         (eq_trans (proj1 (Htype t u) Htu) (proj1 (Htype u w) Huw)))
                emptyStorage 7%nat vaultReference (Clone vaultReference)
                vaultReference) as (_ & Hclone & Hsym & _).
  split; [exact Hclone | exact (Hsym Hclone)].
Defined.

(** A write to /public/vault of the same account does not change what the
    reference to /storage/vault dereferences to. *)
Lemma dereference_observes_only_its_target_witness :
  sampleDereference vaultReference
    (WriteValue (storageWith (NonReferenceValue "Vault")) 1%N "public" "vault"
                (Some (NonReferenceValue "Token"))) 7%nat
  = sampleDereference vaultReference (storageWith (NonReferenceValue "Vault")) 7%nat.
Proof.
  apply (proj2 (dereference_observes_only_its_target
                  pathDomainIdentifier sampleStaticType isSubTypeByID id
                  vaultReference (storageWith (NonReferenceValue "Vault")) 7%nat)).
  - discriminate.
  - reflexivity.
Defined.

(* ===================================================================== *)
(** * Interpreter: the error kinds of interpreter/errors.go               *)
(* ===================================================================== *)

Module Errors.

(** Every struct type of errors.go; each has an [Error() string] method. *)
Inductive ErrorKind : Type :=
| unsupportedOperation
| Error
| StackTraceError
| PositionedError
| NotDeclaredError
| NotInvokableError
| ArgumentCountError
| TransactionNotDeclaredError
| ConditionError
| RedeclarationError
| DereferenceError
| OverflowError
| UnderflowError
| NegativeShiftError
| DivisionByZeroError
| InvalidatedResourceError
| DestroyedResourceError
| ForceNilError
| ForceCastTypeMismatchError
| TypeMismatchError
| InvalidMemberReferenceError
| InvalidPathDomainError
| OverwriteError
| ArrayIndexOutOfBoundsError
| ArraySliceIndicesError
| InvalidSliceIndexError
| StringIndexOutOfBoundsError
| StringSliceIndicesError
| EventEmissionUnavailableError
| UUIDUnavailableError
| TypeLoadingError
| UseBeforeInitializationError
| MemberAccessTypeError
| ValueTransferTypeError
| UnexpectedMappedEntitlementError
| ResourceConstructionError
| ContainerMutationError
| NonStorableValueError
| NonStorableStaticTypeError
| InterfaceMissingLocationError
| InvalidOperandsError
| InvalidPublicKeyError
| NonTransferableValueError
| DuplicateKeyInResourceDictionaryError
| StorageMutatedDuringIterationError
| ContainerMutatedDuringIterationError
| InvalidHexByteError
| InvalidHexLengthError
| InvalidatedResourceReferenceError
| DuplicateAttachmentError
| AttachmentIterationMutationError
| InvalidAttachmentOperationTargetError
| RecursiveTransferError
| CapabilityAddressPublishingError
| EntitledCapabilityPublishingError
| NestedReferenceError
| InclusiveRangeConstructionError
| InvalidCapabilityIssueTypeError
| ResourceReferenceDereferenceError
| ResourceLossError
| InvalidCapabilityIDError
| ReferencedValueChangedError
| GetCapabilityError.

(** What errors.go declares for a kind: the marker methods [IsUserError]
    and [IsInternalError], and whether the struct embeds [LocationRange]. *)
Record Declaration : Type := mkDeclaration {
  hasIsUserError : bool;
  hasIsInternalError : bool;
  embedsLocationRange : bool
}.

Definition declaration (k : ErrorKind) : Declaration :=
  match k with
  | unsupportedOperation => mkDeclaration false true false
  | Error => mkDeclaration false false false
  | StackTraceError => mkDeclaration false false true
  | PositionedError => mkDeclaration true false false
  | NotDeclaredError => mkDeclaration true false false
  | NotInvokableError => mkDeclaration true false false
  | ArgumentCountError => mkDeclaration true false false
  | TransactionNotDeclaredError => mkDeclaration true false false
  | ConditionError => mkDeclaration true false true
  | RedeclarationError => mkDeclaration true false false
  | DereferenceError => mkDeclaration true false true
  | OverflowError => mkDeclaration true false true
  | UnderflowError => mkDeclaration true false true
  | NegativeShiftError => mkDeclaration true false true
  | DivisionByZeroError => mkDeclaration true false true
  | InvalidatedResourceError => mkDeclaration false true true
  | DestroyedResourceError => mkDeclaration true false true
  | ForceNilError => mkDeclaration true false true
  | ForceCastTypeMismatchError => mkDeclaration true false true
  | TypeMismatchError => mkDeclaration true false true
  | InvalidMemberReferenceError => mkDeclaration true false true
  | InvalidPathDomainError => mkDeclaration true false true
  | OverwriteError => mkDeclaration true false true
  | ArrayIndexOutOfBoundsError => mkDeclaration true false true
  | ArraySliceIndicesError => mkDeclaration true false true
  | InvalidSliceIndexError => mkDeclaration true false true
  | StringIndexOutOfBoundsError => mkDeclaration true false true
  | StringSliceIndicesError => mkDeclaration true false true
  | EventEmissionUnavailableError => mkDeclaration true false true
  | UUIDUnavailableError => mkDeclaration true false true
  | TypeLoadingError => mkDeclaration true false false
  | UseBeforeInitializationError => mkDeclaration true false true
  | MemberAccessTypeError => mkDeclaration false true true
  | ValueTransferTypeError => mkDeclaration false true true
  | UnexpectedMappedEntitlementError => mkDeclaration false true true
  | ResourceConstructionError => mkDeclaration false true true
  | ContainerMutationError => mkDeclaration true false true
  | NonStorableValueError => mkDeclaration true false false
  | NonStorableStaticTypeError => mkDeclaration true false false
  | InterfaceMissingLocationError => mkDeclaration true false false
  | InvalidOperandsError => mkDeclaration true false true
  | InvalidPublicKeyError => mkDeclaration true false true
  | NonTransferableValueError => mkDeclaration true false false
  | DuplicateKeyInResourceDictionaryError => mkDeclaration true false true
  | StorageMutatedDuringIterationError => mkDeclaration true false true
  | ContainerMutatedDuringIterationError => mkDeclaration true false true
  | InvalidHexByteError => mkDeclaration true false true
  | InvalidHexLengthError => mkDeclaration true false true
  | InvalidatedResourceReferenceError => mkDeclaration true false true
  | DuplicateAttachmentError => mkDeclaration true false true
  | AttachmentIterationMutationError => mkDeclaration true false true
  | InvalidAttachmentOperationTargetError => mkDeclaration false true true
  | RecursiveTransferError => mkDeclaration true false true
  | CapabilityAddressPublishingError => mkDeclaration true false true
  | EntitledCapabilityPublishingError => mkDeclaration true false true
  | NestedReferenceError => mkDeclaration true false true
  | InclusiveRangeConstructionError => mkDeclaration true false true
  | InvalidCapabilityIssueTypeError => mkDeclaration true false true
  | ResourceReferenceDereferenceError => mkDeclaration false true true
  | ResourceLossError => mkDeclaration true false true
  | InvalidCapabilityIDError => mkDeclaration false true false
  | ReferencedValueChangedError => mkDeclaration true false true
  | GetCapabilityError => mkDeclaration true false true
  end.

Definition IsUserError (k : ErrorKind) : bool := hasIsUserError (declaration k).
Definition IsInternalError (k : ErrorKind) : bool := hasIsInternalError (declaration k).
Definition carriesLocationRange (k : ErrorKind) : bool :=
  embedsLocationRange (declaration k).

(** A kind belongs to exactly one of the two taxonomies. *)
Definition inExactlyOneTaxonomy (k : ErrorKind) : bool :=
  xorb (IsUserError k) (IsInternalError k).

(** The kinds that carry neither marker: the container of all interpreter
    errors and the pseudo error that prints a stack-trace entry. *)
Definition isUnmarked (k : ErrorKind) : bool :=
  match k with
  | Error | StackTraceError => true
  | _ => false
  end.

(** C8 as stated fails: [StackTraceError] (and likewise [Error]) is an
    error kind of errors.go that implements neither marker, so not every
    kind belongs to one of the two taxonomies. *)
Lemma not_every_kind_in_a_taxonomy :
  ~ (forall k, inExactlyOneTaxonomy k = true)
  /\ IsUserError StackTraceError = false
  /\ IsInternalError StackTraceError = false
  /\ IsUserError Error = false
  /\ IsInternalError Error = false.
Proof.
  split; [|repeat split].
  intros Hall. specialize (Hall StackTraceError). discriminate Hall.
Qed.

(** C8, amended: no error kind implements both markers; every kind other
    than the container [Error] and [StackTraceError] implements exactly one;
    [TypeMismatchError], [ConditionError], [ResourceLossError] and
    [ArrayIndexOutOfBoundsError] are user errors and embed a location range;
    [MemberAccessTypeError], [InvalidCapabilityIDError] and
    [UnexpectedMappedEntitlementError] are internal errors. *)
Theorem error_taxonomies_disjoint :
  (forall k, IsUserError k && IsInternalError k = false)
  /\ (forall k, isUnmarked k = false <-> inExactlyOneTaxonomy k = true)
  /\ Forall (fun k => IsUserError k = true /\ IsInternalError k = false
                      /\ carriesLocationRange k = true)
            [TypeMismatchError; ConditionError; ResourceLossError;
             ArrayIndexOutOfBoundsError]
  /\ Forall (fun k => IsInternalError k = true /\ IsUserError k = false)
            [MemberAccessTypeError; InvalidCapabilityIDError;
             UnexpectedMappedEntitlementError].
Proof.
  split; [|split; [|split]].
  - intros k. destruct k; reflexivity.
  - intros k. destruct k; split; intros Hk; try reflexivity; discriminate Hk.
  - repeat constructor.
  - repeat constructor.
Qed.

(** ** Wrapping and child errors *)

(** Go error values, as [WrappedExternalError] tells them apart: a
    [runtime.Error] of the Go runtime, a value of one of the types of
    errors.go, an [errors.ExternalError] around another error, and an error
    of any other package, which may implement the marker interfaces
    [errors.UserError] and [errors.InternalError]. *)
Inductive GoError : Type :=
| RuntimeError (message : string)
| InterpreterError (kind : ErrorKind)
| ExternalError (recovered : GoError)
| ForeignError (isUserError isInternalError : bool) (message : string).

(** errors.NewExternalError *)
Definition NewExternalError (err : GoError) : GoError := ExternalError err.

(** The cases of the type switch of [WrappedExternalError]: [runtime.Error],
    [errors.InternalError], [errors.UserError], [errors.ExternalError] and
    [Error]. *)
Definition isCadenceOrRuntimeError (err : GoError) : bool :=
  match err with
  | RuntimeError _ => true
  | InterpreterError k =>
      IsInternalError k || IsUserError k
      || match k with Error => true | _ => false end
  | ExternalError _ => true
  | ForeignError isUserError isInternalError _ => isInternalError || isUserError
  end.

(** [func WrappedExternalError(err error) error] *)
Definition WrappedExternalError (err : GoError) : GoError :=
  if isCadenceOrRuntimeError err then err else NewExternalError err.

Lemma WrappedExternalError_is_known (err : GoError) :
  isCadenceOrRuntimeError (WrappedExternalError err) = true.
Proof.
  unfold WrappedExternalError.
  destruct (isCadenceOrRuntimeError err) eqn:Hc; [exact Hc | reflexivity].
Qed.

(** Wrapping is idempotent and its result is always one of the errors the
    switch knows; an error is wrapped at most once.  Of the kinds of
    errors.go every one passes unchanged except [StackTraceError], which
    carries no marker and is wrapped as an external error. *)
Theorem WrappedExternalError_idempotent :
  (forall err, WrappedExternalError (WrappedExternalError err)
               = WrappedExternalError err)
  /\ (forall err, isCadenceOrRuntimeError (WrappedExternalError err) = true)
  /\ (forall err, WrappedExternalError err = err
                  \/ (isCadenceOrRuntimeError err = false
                      /\ WrappedExternalError err = ExternalError err))
  /\ (forall k, WrappedExternalError (InterpreterError k) = InterpreterError k
                <-> k <> StackTraceError).
Proof.
  split; [|split; [|split]].
  - intros err. unfold WrappedExternalError at 1.
    rewrite WrappedExternalError_is_known. reflexivity.
  - exact WrappedExternalError_is_known.
  - intros err. unfold WrappedExternalError.
    destruct (isCadenceOrRuntimeError err); [left | right]; auto.
  - intros k. destruct k; split; intros Hk; try reflexivity; try discriminate Hk;
      try (intros Heq; discriminate Heq); contradiction.
Qed.

Section ChildErrors.

(** common.Location, ast.HasPosition, what else an invocation holds, and
    the wrapped error. *)
Context {Location HasPosition InvocationData WrappedError : Type}.

(** interpreter.LocationRange: the location is an interface value and may
    be nil. *)
Record LocationRange : Type := mkLocationRange {
  RangeLocation : option Location;
  RangePosition : HasPosition
}.

Record Invocation : Type := mkInvocation {
  InvocationLocationRange : LocationRange;
  InvocationRest : InvocationData
}.

(** The elements of the result of [ChildErrors]: [StackTraceError] values
    and the wrapped error. *)
Inductive ChildError : Type :=
| StackTraceEntry (locationRange : LocationRange)
| WrappedChild (err : WrappedError).

(** [func (e Error) ChildErrors() []error]: the loop appends one
    [StackTraceError] per invocation that has a location; the wrapped error
    is appended last. *)
Definition ChildErrors (StackTrace : list Invocation) (Err : WrappedError)
  : list ChildError :=
  let errs :=
    fold_left
      (fun errs invocation =>
         let locationRange := InvocationLocationRange invocation in
         match RangeLocation locationRange with
         | None => errs
         | Some _ => errs ++ [StackTraceEntry locationRange]
         end)
      StackTrace [] in
  errs ++ [WrappedChild Err].

Definition hasLocation (invocation : Invocation) : bool :=
  match RangeLocation (InvocationLocationRange invocation) with
  | Some _ => true
  | None => false
  end.

Lemma ChildErrors_loop (StackTrace : list Invocation) (acc : list ChildError) :
  fold_left
    (fun errs invocation =>
       let locationRange := InvocationLocationRange invocation in
       match RangeLocation locationRange with
       | None => errs
       | Some _ => errs ++ [StackTraceEntry locationRange]
       end)
    StackTrace acc
  = acc ++ List.map (fun invocation =>
                       StackTraceEntry (InvocationLocationRange invocation))
                    (List.filter hasLocation StackTrace).
Proof.
  revert acc. induction StackTrace as [|invocation rest IH]; intros acc; simpl.
  - by rewrite app_nil_r.
  - rewrite IH. unfold hasLocation at 2.
    destruct (RangeLocation (InvocationLocationRange invocation)); simpl.
    + by rewrite <- app_assoc.
    + reflexivity.
Qed.

(** The child errors of an [Error] are the stack-trace entries of the
    invocations that have a location, in the order of the stack trace,
    followed by the wrapped error: the list is never empty, the wrapped
    error is its last element, invocations without a location leave no
    entry, and the capacity reserved (one more than the length of the stack
    trace) is never exceeded. *)
Theorem ChildErrors_shape (StackTrace : list Invocation) (Err : WrappedError) :
  ChildErrors StackTrace Err
  = List.map (fun invocation =>
                StackTraceEntry (InvocationLocationRange invocation))
             (List.filter hasLocation StackTrace)
    ++ [WrappedChild Err]
  /\ List.last (ChildErrors StackTrace Err) (WrappedChild Err) = WrappedChild Err
  /\ ChildErrors StackTrace Err <> []
  /\ (length (ChildErrors StackTrace Err) <= 1 + length StackTrace)%nat
  /\ (forall locationRange,
        StackTraceEntry locationRange ∈ ChildErrors StackTrace Err ->
        RangeLocation locationRange <> None).
Proof.
  assert (Hshape : ChildErrors StackTrace Err
                   = List.map (fun invocation =>
                                 StackTraceEntry (InvocationLocationRange invocation))
                              (List.filter hasLocation StackTrace)
                     ++ [WrappedChild Err]).
  { unfold ChildErrors. rewrite ChildErrors_loop. reflexivity. }
  split; [exact Hshape|]. rewrite Hshape. split; [|split; [|split]].
  - apply last_last.
  - intros Hnil. apply app_eq_nil in Hnil as [_ Hnil]. discriminate Hnil.
  - rewrite length_app, length_map. simpl.
    pose proof (filter_length_le hasLocation StackTrace). lia.
  - intros locationRange Hin.
    apply elem_of_app in Hin as [Hin | Hin].
    + apply list_elem_of_In, in_map_iff in Hin as (invocation & [= <-] & Hf).
      apply filter_In in Hf as [_ Hloc]. unfold hasLocation in Hloc.
      destruct (RangeLocation (InvocationLocationRange invocation));
        [discriminate | discriminate Hloc].
    + apply list_elem_of_singleton in Hin. discriminate Hin.
Qed.

End ChildErrors.

End Errors.

End Interpreter.

(* ===================================================================== *)
(** * Sema: entitlement sets                                              *)
(* ===================================================================== *)

Module Sema.

(** An entitlement type is identified by its identifier (type ID); the
    tests create one object per identifier. *)
Definition EntitlementType := string.

(** [EntitlementOrderedSet]: an insertion-ordered set of entitlements. *)
Definition EntitlementOrderedSet := list EntitlementType.

(** orderedmap's [Set] on an ordered set: a new key goes last, a present key
    stays where it is. *)
Definition orderedSetSet (s : EntitlementOrderedSet) (e : EntitlementType)
  : EntitlementOrderedSet :=
  if bool_decide (e ∈ s) then s else s ++ [e].

(** orderedmap's [SetAll]. *)
Definition orderedSetSetAll (s other : EntitlementOrderedSet)
  : EntitlementOrderedSet :=
  fold_left orderedSetSet other s.

(** orderedmap's [ForAnyKey]. *)
Definition ForAnyKey (s : EntitlementOrderedSet) (p : EntitlementType -> bool)
  : bool :=
  existsb p s.

(** Modelled from the spec: [disjunctionKey], which is missing from the
    sources (the tests call it).  The specification says that two
    disjunctions with the same member set, in any order, are the same key:
    the key is the member set. *)
Definition disjunctionKey (disjunction : EntitlementOrderedSet) : gset string :=
  list_to_set disjunction.

(** The ordered map of disjunctions, by key, in insertion order. *)
Definition DisjunctionOrderedMap := list (gset string * EntitlementOrderedSet).

Definition disjunctionsContains (m : DisjunctionOrderedMap) (key : gset string)
  : bool :=
  existsb (fun kd => bool_decide (fst kd = key)) m.

Definition disjunctionsSet (m : DisjunctionOrderedMap) (key : gset string)
    (disjunction : EntitlementOrderedSet) : DisjunctionOrderedMap :=
  if disjunctionsContains m key then m else m ++ [(key, disjunction)].

(** [EntitlementSet]: both fields are pointers, nil in the zero value (the
    tests tell nil from empty with [assert.Nil] and [Len]). *)
Record EntitlementSet : Type := mkEntitlementSet {
  Entitlements : option EntitlementOrderedSet;
  Disjunctions : option DisjunctionOrderedMap
}.

(** [&EntitlementSet{}] *)
Definition emptyEntitlementSet : EntitlementSet := mkEntitlementSet None None.

Definition conjunctionOf (s : EntitlementSet) : EntitlementOrderedSet :=
  default [] (Entitlements s).

Definition disjunctionsOf (s : EntitlementSet) : DisjunctionOrderedMap :=
  default [] (Disjunctions s).

(** [s.Entitlements.Contains], false on a nil set. *)
Definition entitlementsContains (s : EntitlementSet) (e : EntitlementType) : bool :=
  bool_decide (e ∈ conjunctionOf s).

(** Modelled from the spec: the methods of [EntitlementSet], which are
    missing from the sources (only entitlementset_test.go is there).  Each
    follows section 4.2 of the specification; the tests fix what the
    specification leaves open (nil against empty, the order of the members
    of an access, and that [Access] works on the minimized set: test
    "entitlement, one disjunction, not minimal"). *)

(** Add(e): inserts the atom into the conjunction set. *)
Definition Add (e : EntitlementType) (s : EntitlementSet) : EntitlementSet :=
  mkEntitlementSet (Some (orderedSetSet (conjunctionOf s) e)) (Disjunctions s).

(** AddDisjunction(set): dropped when the conjunction set contains one of its
    members; else added under its key, unless the key is there already. *)
Definition AddDisjunction (disjunction : EntitlementOrderedSet)
    (s : EntitlementSet) : EntitlementSet :=
  if ForAnyKey disjunction (entitlementsContains s) then s
  else mkEntitlementSet
         (Entitlements s)
         (Some (disjunctionsSet (disjunctionsOf s) (disjunctionKey disjunction)
                                disjunction)).

(** Merge(other): unions both conjunction sets and both disjunction-key
    sets, without minimizing. *)
Definition Merge (other : EntitlementSet) (s : EntitlementSet) : EntitlementSet :=
  mkEntitlementSet
    (match Entitlements other with
     | None => Entitlements s
     | Some es => Some (orderedSetSetAll (conjunctionOf s) es)
     end)
    (match Disjunctions other with
     | None => Disjunctions s
     | Some ds =>
         Some (fold_left (fun m kd => disjunctionsSet m (fst kd) (snd kd))
                         ds (disjunctionsOf s))
     end).

(** A disjunction is redundant when one of its members is in the
    conjunction set. *)
Definition isRedundant (s : EntitlementSet) (disjunction : EntitlementOrderedSet)
  : bool :=
  ForAnyKey disjunction (entitlementsContains s).

(** Minimize(): removes every disjunction whose member set intersects the
    conjunction set. *)
Definition Minimize (s : EntitlementSet) : EntitlementSet :=
  mkEntitlementSet
    (Entitlements s)
    (option_map (List.filter (fun kd => negb (isRedundant s (snd kd))))
                (Disjunctions s)).

Inductive EntitlementSetKind : Type := Conjunction | Disjunction.

Inductive Access : Type :=
| UnauthorizedAccess
| EntitlementSetAccess (entitlements : EntitlementOrderedSet)
                       (SetKind : EntitlementSetKind).

(** The members of all disjunctions, added to [acc] in order. *)
Definition addAllDisjunctions (acc : EntitlementOrderedSet)
    (ds : DisjunctionOrderedMap) : EntitlementOrderedSet :=
  fold_left (fun acc kd => orderedSetSetAll acc (snd kd)) ds acc.

(** Access(): on the minimized set, Unauthorized if empty; the conjunction
    if there is no disjunction; the one disjunction if there is exactly one
    and no conjunction entry; otherwise the conjunction of every entitlement
    of the conjunction set and of the disjunctions. *)
Definition AccessOf (s : EntitlementSet) : Access :=
  let s := Minimize s in
  match disjunctionsOf s with
  | [] =>
      match conjunctionOf s with
      | [] => UnauthorizedAccess
      | es => EntitlementSetAccess es Conjunction
      end
  | (_, onlyDisjunction) :: rest =>
      match conjunctionOf s, rest with
      | [], [] => EntitlementSetAccess onlyDisjunction Disjunction
      | es, _ =>
          EntitlementSetAccess (addAllDisjunctions es (disjunctionsOf s))
                               Conjunction
      end
  end.

(** An entitlement is mentioned in a set: it is in the conjunction set or a
    member of one of the disjunctions. *)
Definition mentioned (s : EntitlementSet) (e : EntitlementType) : Prop :=
  e ∈ conjunctionOf s \/ exists kd, kd ∈ disjunctionsOf s /\ e ∈ snd kd.

(** What the access of a set is said to be, read off the set as it
    stands: Unauthorized when empty; the conjunction when there is no
    disjunction; the one disjunction when there is exactly one and no
    conjunction entry; otherwise a conjunction with every mentioned
    entitlement in it. *)
Definition accessAsStated (s : EntitlementSet) (result : Access) : Prop :=
  match disjunctionsOf s with
  | [] =>
      match conjunctionOf s with
      | [] => result = UnauthorizedAccess
      | es => result = EntitlementSetAccess es Conjunction
      end
  | (_, onlyDisjunction) :: rest =>
      match conjunctionOf s, rest with
      | [], [] => result = EntitlementSetAccess onlyDisjunction Disjunction
      | _, _ =>
          exists es, result = EntitlementSetAccess es Conjunction
                     /\ forall e, mentioned s e -> e ∈ es
      end
  end.

(** A set is minimal when no disjunction is redundant. *)
Definition isMinimal (s : EntitlementSet) : bool :=
  forallb (fun kd => negb (isRedundant s (snd kd))) (disjunctionsOf s).

(** ** Membership lemmas for the ordered sets *)

Lemma orderedSetSet_elem (s : EntitlementOrderedSet) e x :
  x ∈ orderedSetSet s e <-> x ∈ s \/ x = e.
Proof.
  unfold orderedSetSet. case_bool_decide as He.
  - split; [auto|]. intros [Hx | ->]; assumption.
  - rewrite elem_of_app, list_elem_of_singleton. reflexivity.
Qed.

Lemma orderedSetSetAll_elem (other s : EntitlementOrderedSet) x :
  x ∈ orderedSetSetAll s other <-> x ∈ s \/ x ∈ other.
Proof.
  unfold orderedSetSetAll. revert s.
  induction other as [|e other IH]; intros s; simpl.
  - rewrite elem_of_nil. tauto.
  - rewrite IH, orderedSetSet_elem, elem_of_cons. tauto.
Qed.

Lemma addAllDisjunctions_elem (ds : DisjunctionOrderedMap) acc x :
  x ∈ addAllDisjunctions acc ds <->
  x ∈ acc \/ exists kd, kd ∈ ds /\ x ∈ snd kd.
Proof.
  unfold addAllDisjunctions. revert acc.
  induction ds as [|kd ds IH]; intros acc; simpl.
  - split; [auto|]. intros [Hx | (kd & Hkd & _)]; [assumption|].
    apply elem_of_nil in Hkd. contradiction.
  - rewrite IH, orderedSetSetAll_elem. split.
    + intros [[Hx | Hx] | (kd' & Hkd' & Hx)].
      * left; assumption.
      * right. exists kd. split; [apply elem_of_cons; auto | assumption].
      * right. exists kd'. split; [apply elem_of_cons; auto | assumption].
    + intros [Hx | (kd' & Hkd' & Hx)]; [auto|].
      apply elem_of_cons in Hkd' as [-> | Hkd']; [auto|].
      right. exists kd'. auto.
Qed.







Lemma filter_forallb {A} (f : A -> bool) (l : list A) :
  forallb f l = true -> List.filter f l = l.
Proof.
  induction l as [|a l IH]; simpl; [reflexivity|].
  intros Hall. apply andb_true_iff in Hall as [Ha Hl].
  rewrite Ha, IH by assumption. reflexivity.
Qed.

Lemma Minimize_minimal (s : EntitlementSet) :
  isMinimal s = true -> Minimize s = s.
Proof.
  destruct s as [es [ds|]]; unfold isMinimal, Minimize; simpl; [|reflexivity].
  intros Hmin. f_equal. f_equal. by apply filter_forallb.
Qed.

(** ** The tests of entitlementset_test.go *)

Definition E1 : EntitlementType := "E1".
Definition E2 : EntitlementType := "E2".
Definition E3 : EntitlementType := "E3".
Definition E4 : EntitlementType := "E4".

Example TestEntitlementSet_Add_with_existing_disjunctions :
  let set := AddDisjunction [E1; E2] emptyEntitlementSet in
  Entitlements set = None
  /\ length (disjunctionsOf set) = 1%nat
  /\ length (conjunctionOf (Add E2 set)) = 1%nat
  /\ length (disjunctionsOf (Add E2 set)) = 1%nat.
Proof. vm_compute. repeat split. Qed.

Example TestEntitlementSet_AddDisjunction_no_existing_entitlements :
  let set1 := AddDisjunction [E1; E2] emptyEntitlementSet in
  let set2 := AddDisjunction [E1; E2] set1 in
  let set3 := AddDisjunction [E2; E1] set2 in
  let set4 := AddDisjunction [E2; E3] set3 in
  length (disjunctionsOf set1) = 1%nat
  /\ length (disjunctionsOf set2) = 1%nat
  /\ length (disjunctionsOf set3) = 1%nat
  /\ length (disjunctionsOf set4) = 2%nat
  /\ Entitlements set4 = None.
Proof. vm_compute. repeat split. Qed.

Example TestEntitlementSet_AddDisjunction_with_existing_entitlements :
  let set := AddDisjunction [E1; E2] (Add E1 emptyEntitlementSet) in
  length (conjunctionOf set) = 1%nat /\ Disjunctions set = None.
Proof. vm_compute. repeat split. Qed.

Example TestEntitlementSet_Merge :
  let set1 := AddDisjunction [E2; E3] (Add E1 emptyEntitlementSet) in
  let set2 := AddDisjunction [E3; E4] (Add E2 emptyEntitlementSet) in
  let merged := Merge set2 set1 in
  conjunctionOf merged = [E1; E2]
  /\ length (disjunctionsOf merged) = 2%nat
  /\ disjunctionsContains (disjunctionsOf merged) (disjunctionKey [E2; E3]) = true
  /\ disjunctionsContains (disjunctionsOf merged) (disjunctionKey [E3; E4]) = true.
Proof. vm_compute. repeat split. Qed.

Example TestEntitlementSet_Minimize :
  let set := Add E1 (AddDisjunction [E1; E2] emptyEntitlementSet) in
  length (conjunctionOf set) = 1%nat
  /\ length (disjunctionsOf set) = 1%nat
  /\ length (conjunctionOf (Minimize set)) = 1%nat
  /\ Disjunctions (Minimize set) = Some [].
Proof. vm_compute. repeat split. Qed.

Example TestEntitlementSet_Access :
  AccessOf emptyEntitlementSet = UnauthorizedAccess
  /\ AccessOf (Add E2 (Add E1 emptyEntitlementSet))
     = EntitlementSetAccess [E1; E2] Conjunction
  /\ AccessOf (AddDisjunction [E1; E2] emptyEntitlementSet)
     = EntitlementSetAccess [E1; E2] Disjunction
  /\ AccessOf (AddDisjunction [E2; E3] (AddDisjunction [E1; E2] emptyEntitlementSet))
     = EntitlementSetAccess [E1; E2; E3] Conjunction
  /\ AccessOf (AddDisjunction [E2; E3] (Add E1 emptyEntitlementSet))
     = EntitlementSetAccess [E1; E2; E3] Conjunction
  /\ AccessOf (Add E1 (AddDisjunction [E1; E2] emptyEntitlementSet))
     = EntitlementSetAccess [E1] Conjunction.
Proof. vm_compute. repeat split. Qed.

(** ** Access *)

(** The set of the test "entitlement, one disjunction, not minimal":
    the disjunction (E1 | E2), then the entitlement E1. *)
Definition notMinimalSet : EntitlementSet :=
  Add E1 (AddDisjunction [E1; E2] emptyEntitlementSet).

(** C2 as stated fails on a set that is not minimal: with the conjunction
    set {E1} and the one disjunction (E1 | E2), [Access] is the conjunction
    of E1 alone.  E2 is mentioned in the set and missing from the access;
    the access is neither the disjunction nor a conjunction of every
    mentioned entitlement. *)
Lemma Access_not_minimal_drops_disjunction :
  AccessOf notMinimalSet = EntitlementSetAccess [E1] Conjunction
  /\ conjunctionOf notMinimalSet = [E1]
  /\ List.map snd (disjunctionsOf notMinimalSet) = [[E1; E2]]
  /\ mentioned notMinimalSet E2
  /\ AccessOf notMinimalSet <> EntitlementSetAccess [E1; E2] Disjunction
  /\ ~ accessAsStated notMinimalSet (AccessOf notMinimalSet).
Proof.
  assert (Hm : mentioned notMinimalSet E2).
  { right. exists (disjunctionKey [E1; E2], [E1; E2]). split.
    - vm_compute. apply list_elem_of_singleton. reflexivity.
    - simpl. apply elem_of_cons. right. apply list_elem_of_singleton. reflexivity. }
  split; [reflexivity|]. split; [reflexivity|]. split; [reflexivity|].
  split; [exact Hm|]. split; [discriminate|].
  intros (es & Hes & Hall).
  assert (Hacc : AccessOf notMinimalSet = EntitlementSetAccess [E1] Conjunction)
    by reflexivity.
  rewrite Hacc in Hes. injection Hes as <-.
  specialize (Hall E2 Hm).
  apply list_elem_of_singleton in Hall. discriminate Hall.
Qed.

(** C2, amended: [Access] works on the minimized set.  With the
    disjunctions that share a member with the conjunction set removed, it is
    Unauthorized when nothing is left; the conjunction of exactly the
    conjunction set when no disjunction is left; the one disjunction when
    exactly one is left and the conjunction set is empty; and otherwise a
    conjunction that holds every entitlement of the conjunction set and of
    the remaining disjunctions, and nothing else.  On a minimal set this is
    the access as stated of the set itself. *)
Theorem Access_of_minimized (s : EntitlementSet) :
  accessAsStated (Minimize s) (AccessOf s)
  /\ (forall es kind e,
        AccessOf s = EntitlementSetAccess es kind ->
        e ∈ es -> mentioned (Minimize s) e)
  /\ (isMinimal s = true -> accessAsStated s (AccessOf s)).
Proof.
  assert (H1 : accessAsStated (Minimize s) (AccessOf s)).
  { unfold accessAsStated, AccessOf.
    destruct (disjunctionsOf (Minimize s)) as [|[k d] rest] eqn:Hds.
    - destruct (conjunctionOf (Minimize s)); reflexivity.
    - destruct (conjunctionOf (Minimize s)) as [|c cs] eqn:Hc.
      + destruct rest as [|kd' rest]; [reflexivity|].
        eexists. split; [reflexivity|].
        intros e He. apply addAllDisjunctions_elem.
        unfold mentioned in He. rewrite Hc, Hds in He. exact He.
      + eexists. split; [reflexivity|].
        intros e He. apply addAllDisjunctions_elem.
        unfold mentioned in He. rewrite Hc, Hds in He. exact He. }
  split; [exact H1|]. split.
  - intros es kind e Hacc He. unfold AccessOf in Hacc. unfold mentioned.
    destruct (disjunctionsOf (Minimize s)) as [|[k d] rest] eqn:Hds.
    + destruct (conjunctionOf (Minimize s)) as [|c cs] eqn:Hc; [discriminate|].
      injection Hacc as <- <-. left. exact He.
    + destruct (conjunctionOf (Minimize s)) as [|c cs] eqn:Hc.
      * destruct rest as [|kd' rest].
        -- injection Hacc as <- <-. right. exists (k, d).
           split; [apply elem_of_cons; auto | exact He].
        -- assert (Hes : es = addAllDisjunctions [] ((k, d) :: kd' :: rest))
             by congruence.
           rewrite Hes in He. exact (proj1 (addAllDisjunctions_elem _ _ _) He).
      * assert (Hes : es = addAllDisjunctions (c :: cs) ((k, d) :: rest))
          by congruence.
        rewrite Hes in He. exact (proj1 (addAllDisjunctions_elem _ _ _) He).
  - intros Hmin. rewrite <- (Minimize_minimal s Hmin) at 1. exact H1.
Qed.

(** A minimal set with two disjunctions and an unrelated entitlement. *)
Lemma Access_of_minimized_witness :
  isMinimal (AddDisjunction [E3; E4] (AddDisjunction [E2; E3] (Add E1 emptyEntitlementSet)))
  = true
  /\ accessAsStated
       (AddDisjunction [E3; E4] (AddDisjunction [E2; E3] (Add E1 emptyEntitlementSet)))
       (EntitlementSetAccess [E1; E2; E3; E4] Conjunction).
Proof.
  split; [reflexivity|].
  apply (proj2 (proj2 (Access_of_minimized
           (AddDisjunction [E3; E4] (AddDisjunction [E2; E3] (Add E1 emptyEntitlementSet)))))).
  reflexivity.
Defined.

(** ** Sets are not minimal by construction *)

















End Sema.

(* ===================================================================== *)
(** * Inherited function conditions                                       *)
(* ===================================================================== *)

Module Conditions.

(** A condition of a [pre] or [post] block: evaluating it may log (the
    tests' conditions call [print], which logs its message) and yields a
    boolean. *)
Record Condition : Type := mkCondition {
  logged : list string;
  result : bool
}.

(** What a composite or interface declares for the function under
    consideration, and its direct conformances in source order. *)
Record Declaration : Type := mkDeclaration {
  conformances : list string;
  preConditions : list Condition;
  postConditions : list Condition
}.

(** ast.ConditionKind and interpreter.ConditionError (errors.go). *)
Inductive ConditionKind : Type := ConditionKindPre | ConditionKindPost.

Record ConditionError : Type := mkConditionError {
  Message : string;
  Kind : ConditionKind
}.

(** Modelled from the spec: the linearisation of a type's conformances
    (section 4.4), which is missing from the sources: a depth-first
    pre-order traversal that visits the type first, then each direct
    conformance left to right, recursing before moving to the next sibling,
    and visits a type once even if it is reached on several paths.
    Conformance cycles are rejected at declaration time; [fuel] bounds the
    depth of the traversal. *)
Fixpoint visit (fuel : nat) (program : gmap string Declaration)
    (visited : list string) (type : string) : list string :=
  match fuel with
  | O => visited
  | S fuel' =>
      if bool_decide (type ∈ visited) then visited
      else
        match program !! type with
        | None => visited ++ [type]
        | Some declaration =>
            fold_left (visit fuel' program) (conformances declaration)
                      (visited ++ [type])
        end
  end.

(** A path without repetition has at most [size program] declared types
    before its last one. *)
Definition traversal (program : gmap string Declaration) (concrete : string)
  : list string :=
  visit (S (size program)) program [] concrete.

(** Modelled from the spec: pre-conditions run in depth-first pre-order,
    the interfaces' first and the concrete type's own last; post-conditions
    run in the reverse of that order. *)
Definition preConditionOrder (program : gmap string Declaration)
    (concrete : string) : list string :=
  match traversal program concrete with
  | [] => []
  | self :: interfaces => interfaces ++ [self]
  end.

Definition postConditionOrder (program : gmap string Declaration)
    (concrete : string) : list string :=
  rev (preConditionOrder program concrete).

Definition conditionsOf (program : gmap string Declaration)
    (select : Declaration -> list Condition) (types : list string)
  : list Condition :=
  flat_map (fun type => match program !! type with
                        | Some declaration => select declaration
                        | None => []
                        end) types.

(** Conditions are evaluated in order; the first that fails stops the
    invocation with a [ConditionError]. *)
Fixpoint runConditions (kind : ConditionKind) (conditions : list Condition)
    (logs : list string) : list string * option ConditionError :=
  match conditions with
  | [] => (logs, None)
  | condition :: rest =>
      let logs := logs ++ logged condition in
      if result condition then runConditions kind rest logs
      else (logs, Some (mkConditionError EmptyString kind))
  end.

(** Invoking the function on a value of the concrete type: inherited and
    own pre-conditions, the body (which logs [bodyLogs]), then the
    post-conditions. *)
Definition invoke (program : gmap string Declaration) (concrete : string)
    (bodyLogs : list string) : list string * option ConditionError :=
  match runConditions ConditionKindPre
          (conditionsOf program preConditions (preConditionOrder program concrete))
          [] with
  | (logs, Some e) => (logs, Some e)
  | (logs, None) =>
      runConditions ConditionKindPost
        (conditionsOf program postConditions (postConditionOrder program concrete))
        (logs ++ bodyLogs)
  end.

(** The condition [print(msg)] of the tests: logs [msg], yields true. *)
Definition print (msg : string) : Condition := mkCondition [msg] true.

(** The hierarchy of the tests "pre conditions order" and "post conditions
    order": A: B (concrete), B: C, D, C: E, F, D: F, E, F; each declares one
    condition that prints its own name. *)
Definition diamond (block : string -> Declaration -> Declaration)
  : gmap string Declaration :=
  let declare name conformances :=
    block name (mkDeclaration conformances [] []) in
  <["A" := declare "A" ["B"]]>
  (<["B" := declare "B" ["C"; "D"]]>
  (<["C" := declare "C" ["E"; "F"]]>
  (<["D" := declare "D" ["F"]]>
  (<["E" := declare "E" []]>
  (<["F" := declare "F" []]> ∅))))).

Definition withPre (name : string) (d : Declaration) : Declaration :=
  mkDeclaration (conformances d) [print name] (postConditions d).

Definition withPost (name : string) (d : Declaration) : Declaration :=
  mkDeclaration (conformances d) (preConditions d) [print name].

Definition preConditionsProgram : gmap string Declaration := diamond withPre.
Definition postConditionsProgram : gmap string Declaration := diamond withPost.

(** ** Properties of the traversal *)

Lemma visit_NoDup fuel program : forall visited type,
  NoDup visited -> NoDup (visit fuel program visited type).
Proof.
  induction fuel as [|fuel IH]; intros visited type Hnd; simpl; [exact Hnd|].
  case_bool_decide as Hin; [exact Hnd|].
  assert (Hnd' : NoDup (visited ++ [type])).
  { apply NoDup_app. split; [exact Hnd|]. split.
    - intros x Hx Hx'. apply list_elem_of_singleton in Hx'. by subst x.
    - apply NoDup_singleton. }
  destruct (program !! type) as [declaration|]; [|exact Hnd'].
  generalize dependent (visited ++ [type]).
  induction (conformances declaration) as [|c cs IHcs]; intros acc Hacc; simpl.
  - exact Hacc.
  - apply IHcs. by apply IH.
Qed.

Lemma visit_keeps fuel program : forall visited type x,
  x ∈ visited -> x ∈ visit fuel program visited type.
Proof.
  induction fuel as [|fuel IH]; intros visited type x Hx; simpl; [exact Hx|].
  case_bool_decide as Hin; [exact Hx|].
  assert (Hx' : x ∈ visited ++ [type]) by (apply elem_of_app; by left).
  destruct (program !! type) as [declaration|]; [|exact Hx'].
  generalize dependent (visited ++ [type]).
  induction (conformances declaration) as [|c cs IHcs]; intros acc Hacc; simpl.
  - exact Hacc.
  - apply IHcs. by apply IH.
Qed.

Lemma preConditionOrder_NoDup program concrete :
  NoDup (preConditionOrder program concrete).
Proof.
  unfold preConditionOrder.
  pose proof (visit_NoDup (S (size program)) program [] concrete (NoDup_nil_2))
    as Hnd.
  fold (traversal program concrete) in Hnd.
  destruct (traversal program concrete) as [|self interfaces]; [constructor|].
  apply NoDup_cons in Hnd as [Hself Hnd].
  apply NoDup_app. split; [exact Hnd|]. split.
  - intros x Hx Hx'. apply list_elem_of_singleton in Hx'. by subst x.
  - apply NoDup_singleton.
Qed.

(** C1: in the diamond A: B, B: C, D, C: E, F, D: F, invoking the function
    on an A value runs the pre-conditions in the order B, C, E, F, D, A
    (depth-first pre-order over the interfaces, F once although it is
    reached through C and through D, A's own last), and the post-conditions
    in the reverse order A, D, F, E, C, B; no condition fails.  The order
    does not depend on the traversal's depth bound once it is at least the
    depth of the hierarchy. *)
Theorem diamond_condition_order :
  invoke preConditionsProgram "A" [] = (["B"; "C"; "E"; "F"; "D"; "A"], None)
  /\ invoke postConditionsProgram "A" [] = (["A"; "D"; "F"; "E"; "C"; "B"], None)
  /\ preConditionOrder preConditionsProgram "A" = ["B"; "C"; "E"; "F"; "D"; "A"]
  /\ postConditionOrder postConditionsProgram "A"
     = rev ["B"; "C"; "E"; "F"; "D"; "A"]
  /\ NoDup (preConditionOrder preConditionsProgram "A")
  /\ (forall fuel,
        visit (4 + fuel) preConditionsProgram [] "A"
        = ["A"; "B"; "C"; "E"; "F"; "D"]
        /\ visit (4 + fuel) postConditionsProgram [] "A"
           = ["A"; "B"; "C"; "E"; "F"; "D"]).
Proof.
  split; [vm_compute; reflexivity|].
  split; [vm_compute; reflexivity|].
  split; [vm_compute; reflexivity|].
  split; [vm_compute; reflexivity|].
  split; [apply preConditionOrder_NoDup|].
  intros fuel. split; vm_compute; reflexivity.
Qed.

End Conditions.

(* ===================================================================== *)
(** * Runtime: storage (runtime/storage.go)                               *)
(* ===================================================================== *)

Module Runtime.

Import Interpreter.
Import Interpreter.Errors.

Definition StorageDomainContract : string := "contract".

Definition storageIndexLength : nat := 8.

(** interpreter.StorageKey{Address, Key}, built by [NewStorageKey]. *)
Definition StorageKey : Type := Address * string.

Definition NewStorageKey (address : Address) (key : string) : StorageKey :=
  (address, key).

Definition KeyAddress (k : StorageKey) : Address := fst k.
Definition Key (k : StorageKey) : string := snd k.

(** atree.SlabIndex is [8]byte: a list of bytes whose length is 8; the zero
    value [atree.SlabIndex{}] is eight zero bytes. *)
Definition SlabIndex : Type := list Byte.byte.

Definition zeroSlabIndex : SlabIndex := replicate storageIndexLength Byte.x00.

(** errors.NewUnexpectedError: the result implements errors.InternalError. *)
Definition NewUnexpectedError (message : string) : GoError :=
  ForeignError false true message.

Section Ledger.

(** atree.Ledger: registers by owner and key.  The owner is [address[:]],
    the bytes of the address; the interface returns the value read, or an
    error. *)
Context {Ledger : Type}.
Variable GetValue : Ledger -> Address -> list Byte.byte ->
                    list Byte.byte * option GoError.
Variable SetValue : Ledger -> Address -> list Byte.byte -> list Byte.byte ->
                    Ledger * option GoError.

(** The message that [fmt] renders for an invalid storage index, from the
    address, the expected and the actual length. *)
Variable invalidStorageIndexMessage : Address -> nat -> nat -> string.

(** [func getSlabIndexFromRegisterValue(ledger, address, key)
      (atree.SlabIndex, bool, error)] *)
Definition getSlabIndexFromRegisterValue (ledger : Ledger) (address : Address)
    (key : list Byte.byte) : SlabIndex * bool * option GoError :=
  let '(data, err) := GetValue ledger address key in
  match err with
  | Some err => (zeroSlabIndex, false, Some (WrappedExternalError err))
  | None =>
      let dataLength := length data in
      if Nat.eqb dataLength 0 then (zeroSlabIndex, false, None)
      else
        let isStorageIndex := Nat.eqb dataLength storageIndexLength in
        if negb isStorageIndex then
          (zeroSlabIndex, false,
           Some (NewUnexpectedError
                   (invalidStorageIndexMessage address storageIndexLength
                                               dataLength)))
        else (data, true, None)
  end.

(** [func commitSlabIndices(slabIndices, ledger) error]: the ordered map is
    walked from its oldest entry; the first failing write ends the loop. *)
Fixpoint commitSlabIndices (slabIndices : list (StorageKey * SlabIndex))
    (ledger : Ledger) : Ledger * option GoError :=
  match slabIndices with
  | [] => (ledger, None)
  | (key, index) :: rest =>
      let '(ledger', err) :=
        SetValue ledger (KeyAddress key) (String.list_byte_of_string (Key key)) index in
      match err with
      | Some err => (ledger', Some (WrappedExternalError err))
      | None => commitSlabIndices rest ledger'
      end
  end.

(** A register is read as a slab index exactly when the ledger answers
    without an error and with 8 bytes, and then the index is those bytes;
    an empty register is "not found" without an error; any other length is
    an internal error; a ledger error comes back wrapped; in all these
    cases the index returned is the zero index, and no result is both found
    and in error. *)
Theorem getSlabIndexFromRegisterValue_cases
    (ledger : Ledger) (address : Address) (key : list Byte.byte) :
  let data := fst (GetValue ledger address key) in
  let ledgerError := snd (GetValue ledger address key) in
  let index := fst (fst (getSlabIndexFromRegisterValue ledger address key)) in
  let found := snd (fst (getSlabIndexFromRegisterValue ledger address key)) in
  let err := snd (getSlabIndexFromRegisterValue ledger address key) in
  (found = true <-> ledgerError = None /\ length data = 8%nat)
  /\ (found = true -> index = data /\ err = None)
  /\ (found = false -> index = zeroSlabIndex)
  /\ (found = false /\ err = None <-> ledgerError = None /\ data = [])
  /\ (forall e, ledgerError = Some e -> err = Some (WrappedExternalError e))
  /\ (ledgerError = None -> length data <> 0%nat -> length data <> 8%nat ->
      exists message, err = Some (ForeignError false true message))
  /\ length index = 8%nat.
Proof.
  cbv zeta. unfold getSlabIndexFromRegisterValue.
  destruct (GetValue ledger address key) as [data [e|]]; cbn [fst snd].
  - repeat split; intros;
      repeat match goal with H : _ /\ _ |- _ => destruct H end;
      try discriminate; try congruence.
  - destruct (Nat.eqb (length data) 0) eqn:Hzero.
    + apply Nat.eqb_eq in Hzero. pose proof Hzero as Hnil.
      apply length_zero_iff_nil in Hnil. cbn [fst snd].
      repeat split; intros;
        repeat match goal with H : _ /\ _ |- _ => destruct H end;
        try discriminate; try congruence.
    + apply Nat.eqb_neq in Hzero.
      assert (Hnotnil : data <> []) by (intros ->; contradiction).
      destruct (Nat.eqb (length data) storageIndexLength) eqn:Hlen;
        cbn [fst snd negb].
      * apply Nat.eqb_eq in Hlen. unfold storageIndexLength in Hlen.
        repeat split; intros;
          repeat match goal with H : _ /\ _ |- _ => destruct H end;
          try discriminate; try congruence.
      * apply Nat.eqb_neq in Hlen. unfold storageIndexLength in Hlen.
        repeat split; intros;
          repeat match goal with H : _ /\ _ |- _ => destruct H end;
          try discriminate; try congruence; try contradiction.
        eexists. reflexivity.
Qed.

(** ** Writing slab indices and reading them back *)

Lemma list_byte_of_string_inj (s t : string) :
  String.list_byte_of_string s = String.list_byte_of_string t -> s = t.
Proof.
  intros Heq. rewrite <- (String.string_of_list_byte_of_string s),
                <- (String.string_of_list_byte_of_string t), Heq.
  reflexivity.
Qed.

(** The laws of a ledger that stores what it is given: a register that was
    set reads back, and setting a register leaves the others alone. *)
Definition storesWhatItIsGiven : Prop :=
  (forall ledger owner key value ledger',
      SetValue ledger owner key value = (ledger', None) ->
      GetValue ledger' owner key = (value, None))
  /\ (forall ledger owner key value ledger' owner' key',
        SetValue ledger owner key value = (ledger', None) ->
        (owner, key) <> (owner', key') ->
        GetValue ledger' owner' key' = GetValue ledger owner' key').

Lemma commitSlabIndices_other (Hledger : storesWhatItIsGiven)
    (slabIndices : list (StorageKey * SlabIndex)) :
  forall ledger ledger' key,
    commitSlabIndices slabIndices ledger = (ledger', None) ->
    key ∉ List.map fst slabIndices ->
    GetValue ledger' (KeyAddress key) (String.list_byte_of_string (Key key))
    = GetValue ledger (KeyAddress key) (String.list_byte_of_string (Key key)).
Proof.
  destruct Hledger as [_ Hother].
  induction slabIndices as [|[k i] rest IH]; intros ledger ledger' key Hcommit Hnotin.
  - injection Hcommit as <-. reflexivity.
  - simpl in Hcommit.
    destruct (SetValue ledger (KeyAddress k) (String.list_byte_of_string (Key k)) i)
      as [ledger1 [e|]] eqn:Hset; [discriminate|].
    simpl in Hnotin. apply not_elem_of_cons in Hnotin as [Hne Hnotin].
    rewrite (IH ledger1 ledger' key Hcommit Hnotin).
    apply (Hother _ _ _ _ _ _ _ Hset).
    intros [= Ha Hk]. apply list_byte_of_string_inj in Hk.
    apply Hne. destruct key, k. simpl in *. congruence.
Qed.

(** A write that fails ends the loop: the entries before it have been
    written, and the error returned is the wrapped error of the ledger. *)
Lemma commitSlabIndices_fails_at (before after : list (StorageKey * SlabIndex))
    (key : StorageKey) (index : SlabIndex) (e : GoError) :
  forall ledger ledgerBefore ledger',
    commitSlabIndices before ledger = (ledgerBefore, None) ->
    SetValue ledgerBefore (KeyAddress key) (String.list_byte_of_string (Key key))
             index = (ledger', Some e) ->
    commitSlabIndices (before ++ (key, index) :: after) ledger
    = (ledger', Some (WrappedExternalError e)).
Proof.
  induction before as [|[k i] before IH]; intros ledger ledgerBefore ledger' Hbefore Hset.
  - injection Hbefore as <-. simpl. rewrite Hset. reflexivity.
  - simpl in Hbefore. simpl.
    destruct (SetValue ledger (KeyAddress k) (String.list_byte_of_string (Key k)) i)
      as [ledger1 [e1|]]; [discriminate|].
    by apply (IH ledger1 ledgerBefore).
Qed.

Lemma commitSlabIndices_failed (slabIndices : list (StorageKey * SlabIndex)) :
  forall ledger ledger' err,
    commitSlabIndices slabIndices ledger = (ledger', Some err) ->
    exists before key index after ledgerBefore e,
      slabIndices = before ++ (key, index) :: after
      /\ commitSlabIndices before ledger = (ledgerBefore, None)
      /\ SetValue ledgerBefore (KeyAddress key)
                  (String.list_byte_of_string (Key key)) index
         = (ledger', Some e)
      /\ err = WrappedExternalError e.
Proof.
  induction slabIndices as [|[k i] rest IH]; intros ledger ledger' err Hcommit.
  - discriminate.
  - simpl in Hcommit.
    destruct (SetValue ledger (KeyAddress k) (String.list_byte_of_string (Key k)) i)
      as [ledger1 [e|]] eqn:Hset.
    + injection Hcommit as <- <-.
      exists [], k, i, rest, ledger, e. repeat split. exact Hset.
    + destruct (IH ledger1 ledger' err Hcommit)
        as (before & key & index & after & ledgerBefore & e & -> & Hbefore & Hfail & ->).
      exists ((k, i) :: before), key, index, after, ledgerBefore, e.
      repeat split; [|exact Hfail].
      simpl. rewrite Hset. exact Hbefore.
Qed.

(** On a ledger that stores what it is given, every slab index written by a
    successful [commitSlabIndices] is read back by
    [getSlabIndexFromRegisterValue] under its key, found and without an
    error (the keys of the ordered map are distinct and a slab index has 8
    bytes); and when a write fails, the error returned is the wrapped error
    of the ledger: [commitSlabIndices] returns an error exactly when, after
    the entries before some entry have been written, the ledger refuses
    that entry with an error [e]; the error returned is then
    [WrappedExternalError e], the ledger is as that write left it, and the
    entries after it are not written. *)
Theorem commitSlabIndices_read_back
    (slabIndices : list (StorageKey * SlabIndex)) (ledger ledger' : Ledger) :
  storesWhatItIsGiven ->
  NoDup (List.map fst slabIndices) ->
  (forall key index, (key, index) ∈ slabIndices -> length index = 8%nat) ->
  (commitSlabIndices slabIndices ledger = (ledger', None) ->
   forall key index,
     (key, index) ∈ slabIndices ->
     getSlabIndexFromRegisterValue ledger' (KeyAddress key)
                                   (String.list_byte_of_string (Key key))
     = (index, true, None))
  /\ (forall err,
        commitSlabIndices slabIndices ledger = (ledger', Some err) ->
        isCadenceOrRuntimeError err = true
        /\ exists before key index after ledgerBefore e,
             slabIndices = before ++ (key, index) :: after
             /\ commitSlabIndices before ledger = (ledgerBefore, None)
             /\ SetValue ledgerBefore (KeyAddress key)
                         (String.list_byte_of_string (Key key)) index
                = (ledger', Some e)
             /\ err = WrappedExternalError e)
  /\ (forall before key index after ledgerBefore e,
        slabIndices = before ++ (key, index) :: after ->
        commitSlabIndices before ledger = (ledgerBefore, None) ->
        SetValue ledgerBefore (KeyAddress key)
                 (String.list_byte_of_string (Key key)) index
        = (ledger', Some e) ->
        commitSlabIndices slabIndices ledger
        = (ledger', Some (WrappedExternalError e))).
Proof.
  intros Hledger Hnodup Hlen. split; [|split].
  - revert ledger Hnodup Hlen.
    induction slabIndices as [|[k i] rest IH]; intros ledger Hnodup Hlen Hcommit key index Hin.
    + by apply elem_of_nil in Hin.
    + simpl in Hcommit.
      destruct (SetValue ledger (KeyAddress k) (String.list_byte_of_string (Key k)) i)
        as [ledger1 [e|]] eqn:Hset; [discriminate|].
      simpl in Hnodup. apply NoDup_cons in Hnodup as [Hfresh Hnodup].
      apply elem_of_cons in Hin as [[= -> ->] | Hin].
      * unfold getSlabIndexFromRegisterValue.
        rewrite (commitSlabIndices_other Hledger rest ledger1 ledger' k Hcommit Hfresh).
        rewrite (proj1 Hledger _ _ _ _ _ Hset).
        assert (Hi : length i = 8%nat) by (apply (Hlen k); apply elem_of_cons; auto).
        rewrite Hi. reflexivity.
      * apply (IH ledger1); try assumption.
        intros key' index' Hin'. apply (Hlen key'). apply elem_of_cons. auto.
  - intros err Hcommit.
    pose proof (commitSlabIndices_failed slabIndices ledger ledger' err Hcommit)
      as Hfailed.
    split; [|exact Hfailed].
    destruct Hfailed as (_ & _ & _ & _ & _ & e & _ & _ & _ & ->).
    apply WrappedExternalError_is_known.
  - intros before key index after ledgerBefore e -> Hbefore Hset.
    by apply (commitSlabIndices_fails_at before after key index e ledger ledgerBefore).
Qed.

End Ledger.

(** ** A ledger in memory

    Registers are kept by owner and key; a register that was never set
    reads as empty. *)

Definition MemoryLedger : Type := Address -> string -> list Byte.byte.

Definition emptyLedger : MemoryLedger := fun _ _ => [].

Definition memoryGetValue (ledger : MemoryLedger) (owner : Address)
    (key : list Byte.byte) : list Byte.byte * option GoError :=
  (ledger owner (String.string_of_list_byte key), None).

Definition memorySetValue (ledger : MemoryLedger) (owner : Address)
    (key value : list Byte.byte) : MemoryLedger * option GoError :=
  (fun owner' key' =>
     if bool_decide ((owner, String.string_of_list_byte key) = (owner', key'))
     then value else ledger owner' key',
   None).

Lemma memoryLedger_storesWhatItIsGiven :
  storesWhatItIsGiven memoryGetValue memorySetValue.
Proof.
  split.
  - intros ledger owner key value ledger' [= <-].
    unfold memoryGetValue. by rewrite bool_decide_eq_true_2.
  - intros ledger owner key value ledger' owner' key' [= <-] Hne.
    unfold memoryGetValue. rewrite bool_decide_eq_false_2; [reflexivity|].
    intros [= Ho Hk]. apply Hne. f_equal; [exact Ho|].
    rewrite <- (String.list_byte_of_string_of_list_byte key),
            <- (String.list_byte_of_string_of_list_byte key'), Hk.
    reflexivity.
Qed.

Definition sampleSlabIndex : SlabIndex :=
  [Byte.x00; Byte.x00; Byte.x00; Byte.x00; Byte.x00; Byte.x00; Byte.x01; Byte.x2a].

Definition sampleSlabIndices : list (StorageKey * SlabIndex) :=
  [(NewStorageKey 1%N "storage", sampleSlabIndex);
   (NewStorageKey 1%N "public", zeroSlabIndex)].

Lemma sampleSlabIndices_NoDup : NoDup (List.map fst sampleSlabIndices).
Proof.
  simpl. apply NoDup_cons. split.
  - intros Hin. apply list_elem_of_singleton in Hin. discriminate Hin.
  - apply NoDup_singleton.
Qed.

Lemma sampleSlabIndices_length key index :
  (key, index) ∈ sampleSlabIndices -> length index = 8%nat.
Proof.
  unfold sampleSlabIndices. intros Hin.
  apply elem_of_cons in Hin as [[= -> ->] | Hin]; [reflexivity|].
  apply list_elem_of_singleton in Hin as [= -> ->]. reflexivity.
Qed.

(** A ledger in memory that refuses every write to the registers of
    account 0x2. *)
Definition refusedWrite : GoError := ForeignError false false "account is frozen".

Definition guardedSetValue (ledger : MemoryLedger) (owner : Address)
    (key value : list Byte.byte) : MemoryLedger * option GoError :=
  if bool_decide (owner = 2%N) then (ledger, Some refusedWrite)
  else memorySetValue ledger owner key value.

Lemma guardedLedger_storesWhatItIsGiven :
  storesWhatItIsGiven memoryGetValue guardedSetValue.
Proof.
  destruct memoryLedger_storesWhatItIsGiven as [Hsame Hother].
  unfold guardedSetValue. split.
  - intros ledger owner key value ledger'. case_bool_decide; [discriminate|].
    apply Hsame.
  - intros ledger owner key value ledger' owner' key'.
    case_bool_decide; [discriminate|]. apply Hother.
Qed.

Definition guardedSlabIndices : list (StorageKey * SlabIndex) :=
  [(NewStorageKey 1%N "storage", sampleSlabIndex);
   (NewStorageKey 2%N "storage", sampleSlabIndex);
   (NewStorageKey 1%N "public", zeroSlabIndex)].

Lemma guardedSlabIndices_NoDup : NoDup (List.map fst guardedSlabIndices).
Proof.
  simpl. repeat (apply NoDup_cons; split); try apply NoDup_nil_2;
    rewrite ?elem_of_cons, ?elem_of_nil; intros Hin;
    repeat (destruct Hin as [Hin | Hin]; try discriminate Hin); exact Hin.
Qed.

Lemma guardedSlabIndices_length key index :
  (key, index) ∈ guardedSlabIndices -> length index = 8%nat.
Proof.
  unfold guardedSlabIndices. rewrite !elem_of_cons, elem_of_nil.
  intros [[= -> ->] | [[= -> ->] | [[= -> ->] | []]]]; reflexivity.
Qed.

(** Two slab indices of account 0x1 are committed to an empty ledger and
    the first is read back; with a write to account 0x2 between them, which
    the ledger refuses, the commit returns the refusal wrapped as an
    external error, after the first index has been written. *)
Lemma commitSlabIndices_read_back_witness :
  getSlabIndexFromRegisterValue
    memoryGetValue (fun _ _ _ => "invalid storage index")
    (fst (commitSlabIndices memorySetValue sampleSlabIndices emptyLedger))
    1%N (String.list_byte_of_string "storage")
  = (sampleSlabIndex, true, None)
  /\ commitSlabIndices guardedSetValue guardedSlabIndices emptyLedger
     = (fst (guardedSetValue emptyLedger 1%N
               (String.list_byte_of_string "storage") sampleSlabIndex),
        Some (ExternalError refusedWrite)).
Proof.
  split.
  - apply (proj1 (commitSlabIndices_read_back
                    memoryGetValue memorySetValue (fun _ _ _ => "invalid storage index")
                    sampleSlabIndices emptyLedger
                    (fst (commitSlabIndices memorySetValue sampleSlabIndices emptyLedger))
                    memoryLedger_storesWhatItIsGiven
                    sampleSlabIndices_NoDup sampleSlabIndices_length)
                 eq_refl (NewStorageKey 1%N "storage") sampleSlabIndex).
    apply elem_of_cons. left. reflexivity.
  - apply (proj2 (proj2 (commitSlabIndices_read_back
                    memoryGetValue guardedSetValue (fun _ _ _ => "invalid storage index")
                    guardedSlabIndices emptyLedger
                    (fst (guardedSetValue emptyLedger 1%N
                            (String.list_byte_of_string "storage") sampleSlabIndex))
                    guardedLedger_storesWhatItIsGiven
                    guardedSlabIndices_NoDup guardedSlabIndices_length))
                 [(NewStorageKey 1%N "storage", sampleSlabIndex)]
                 (NewStorageKey 2%N "storage") sampleSlabIndex
                 [(NewStorageKey 1%N "public", zeroSlabIndex)]
                 (fst (guardedSetValue emptyLedger 1%N
                         (String.list_byte_of_string "storage") sampleSlabIndex))
                 refusedWrite); reflexivity.
Defined.

(** ** Contract updates *)

(** common.AddressLocation{Address, Name} *)
Record AddressLocation : Type := mkAddressLocation {
  LocationAddress : Address;
  Name : string
}.

#[local] Instance AddressLocation_eq_dec : EqDecision AddressLocation.
Proof. solve_decision. Defined.

(** The storage key of a contract: [NewStorageKey(location.Address,
    location.Name)]. *)
Definition contractKey (location : AddressLocation) : StorageKey :=
  NewStorageKey (LocationAddress location) (Name location).

(** common/orderedmap: [Set] replaces the value of a present key where it
    stands and appends a new key; [Contains] and [Get] look a key up. *)
Definition orderedMapContains {V : Type} (m : list (StorageKey * V))
    (key : StorageKey) : bool :=
  existsb (fun kv => bool_decide (fst kv = key)) m.

Definition orderedMapSet {V : Type} (m : list (StorageKey * V))
    (key : StorageKey) (value : V) : list (StorageKey * V) :=
  if orderedMapContains m key then
    List.map (fun kv => if bool_decide (fst kv = key) then (key, value) else kv) m
  else m ++ [(key, value)].

Fixpoint orderedMapGet {V : Type} (m : list (StorageKey * V))
    (key : StorageKey) : option V :=
  match m with
  | [] => None
  | (k, v) :: rest =>
      if bool_decide (k = key) then Some v else orderedMapGet rest key
  end.

Section ContractUpdates.

Context {SemaType Authorization OtherValue PathDomain : Type}.

Local Abbreviation Value := (@Interpreter.Value SemaType Authorization OtherValue PathDomain).
Local Abbreviation Interpreter :=
  (@Interpreter.Interpreter SemaType Authorization OtherValue PathDomain).

(** The field [contractUpdates] of [Storage]: nil until the first update is
    recorded.  A recorded value is the contract's composite value, or nil
    for a removal. *)
Definition ContractUpdates : Type := option (list (StorageKey * option Value)).

(** [func (s *Storage) recordContractUpdate(location, contractValue)] *)
Definition recordContractUpdate (location : AddressLocation)
    (contractValue : option Value) (contractUpdates : ContractUpdates)
  : ContractUpdates :=
  let key := NewStorageKey (LocationAddress location) (Name location) in
  Some (orderedMapSet (default [] contractUpdates) key contractValue).

(** [func (s *Storage) contractUpdateRecorded(location) bool] *)
Definition contractUpdateRecorded (location : AddressLocation)
    (contractUpdates : ContractUpdates) : bool :=
  match contractUpdates with
  | None => false
  | Some m =>
      let key := NewStorageKey (LocationAddress location) (Name location) in
      orderedMapContains m key
  end.

(** [func (s *Storage) writeContractUpdate(inter, key, contractValue)]: the
    write goes to the storage map of the contract domain of the key's
    account, which is created if it is not there. *)
Definition writeContractUpdate (inter : Interpreter) (key : StorageKey)
    (contractValue : option Value) : Interpreter :=
  let storageMapKey := StringStorageMapKey (Key key) in
  match contractValue with
  | None => WriteValue inter (KeyAddress key) StorageDomainContract storageMapKey None
  | Some value =>
      WriteValue inter (KeyAddress key) StorageDomainContract storageMapKey
                 (Some value)
  end.

(** [func (s *Storage) commitContractUpdates(inter)] *)
Definition commitContractUpdates (contractUpdates : ContractUpdates)
    (inter : Interpreter) : Interpreter :=
  match contractUpdates with
  | None => inter
  | Some m =>
      fold_left (fun inter pair => writeContractUpdate inter (fst pair) (snd pair))
                m inter
  end.

(** The updates recorded by a run, in order, on a fresh [Storage]. *)
Definition recordAll (updates : list (AddressLocation * option Value))
  : ContractUpdates :=
  fold_left (fun recorded update =>
               recordContractUpdate (fst update) (snd update) recorded)
            updates None.

(** The last update among [updates] for a key, if there is one. *)
Definition lastUpdateFrom (updates : list (AddressLocation * option Value))
    (key : StorageKey) (start : option (option Value)) : option (option Value) :=
  fold_left (fun found update =>
               if bool_decide (contractKey (fst update) = key)
               then Some (snd update) else found)
            updates start.

Definition lastUpdate (updates : list (AddressLocation * option Value))
    (key : StorageKey) : option (option Value) :=
  lastUpdateFrom updates key None.

Lemma lastUpdateFrom_start updates key start :
  lastUpdateFrom updates key start
  = match lastUpdateFrom updates key None with
    | Some v => Some v
    | None => start
    end.
Proof.
  unfold lastUpdateFrom. revert start.
  induction updates as [|[l v] rest IH]; intros start; simpl; [reflexivity|].
  destruct (bool_decide (contractKey l = key)); [|apply IH].
  rewrite (IH (Some v)).
  destruct (fold_left _ rest None); reflexivity.
Qed.

Lemma orderedMapContains_Get {V : Type} (m : list (StorageKey * V)) key :
  orderedMapContains m key = true <-> orderedMapGet m key <> None.
Proof.
  unfold orderedMapContains.
  induction m as [|[k v] rest IH]; simpl; [split; [discriminate | congruence]|].
  case_bool_decide; simpl; [split; [discriminate | reflexivity] | exact IH].
Qed.

Lemma orderedMapGet_replace {V : Type} (m : list (StorageKey * V)) key value key' :
  orderedMapGet
    (List.map (fun kv => if bool_decide (fst kv = key) then (key, value) else kv) m)
    key'
  = if bool_decide (key = key') then
      match orderedMapGet m key with
      | Some _ => Some value
      | None => None
      end
    else orderedMapGet m key'.
Proof.
  induction m as [|[k v] rest IH]; simpl.
  - case_bool_decide; reflexivity.
  - rewrite IH. clear IH.
    destruct (decide (k = key)) as [->|Hk].
    + rewrite !bool_decide_eq_true_2 by reflexivity. simpl.
      case_bool_decide; reflexivity.
    + rewrite !(bool_decide_eq_false_2 (k = key)) by exact Hk. simpl.
      repeat case_bool_decide; congruence.
Qed.

Lemma orderedMapGet_append {V : Type} (m : list (StorageKey * V)) key value key' :
  orderedMapGet (m ++ [(key, value)]) key'
  = match orderedMapGet m key' with
    | Some v => Some v
    | None => if bool_decide (key = key') then Some value else None
    end.
Proof.
  induction m as [|[k v] rest IH]; simpl.
  - reflexivity.
  - destruct (bool_decide (k = key')); [reflexivity | exact IH].
Qed.

Lemma orderedMapSet_Get {V : Type} (m : list (StorageKey * V)) key value key' :
  orderedMapGet (orderedMapSet m key value) key'
  = if bool_decide (key = key') then Some value else orderedMapGet m key'.
Proof.
  unfold orderedMapSet.
  destruct (orderedMapContains m key) eqn:Hc.
  - apply orderedMapContains_Get in Hc. rewrite orderedMapGet_replace.
    destruct (orderedMapGet m key); [reflexivity | contradiction].
  - assert (Hnone : orderedMapGet m key = None).
    { destruct (orderedMapGet m key) eqn:Hg; [|reflexivity].
      assert (orderedMapContains m key = true)
        by (apply orderedMapContains_Get; congruence).
      congruence. }
    rewrite orderedMapGet_append. case_bool_decide as Hk.
    + subst key'. rewrite Hnone. reflexivity.
    + destruct (orderedMapGet m key'); reflexivity.
Qed.

Lemma orderedMapSet_NoDup {V : Type} (m : list (StorageKey * V)) key value :
  NoDup (List.map fst m) -> NoDup (List.map fst (orderedMapSet m key value)).
Proof.
  intros Hnd. unfold orderedMapSet.
  destruct (orderedMapContains m key) eqn:Hc.
  - replace (List.map fst (List.map _ m)) with (List.map fst m); [exact Hnd|].
    rewrite List.map_map. apply List.map_ext. intros [k v]. simpl.
    case_bool_decide; simpl; congruence.
  - rewrite List.map_app. simpl. apply NoDup_app. split; [exact Hnd|]. split.
    + intros k Hin Hk. apply list_elem_of_singleton in Hk. subst k.
      apply list_elem_of_In, in_map_iff in Hin as ([k v] & Hk & Hin).
      simpl in Hk. subst k.
      assert (orderedMapContains m key = true); [|congruence].
      unfold orderedMapContains. apply existsb_exists. exists (key, v).
      split; [exact Hin|]. simpl. by apply bool_decide_eq_true.
    + apply NoDup_singleton.
Qed.

Lemma recordAll_from (updates : list (AddressLocation * option Value)) :
  forall (m : list (StorageKey * option Value)) (recorded : ContractUpdates),
    default [] recorded = m ->
    NoDup (List.map fst m) ->
    let m' := default []
                (fold_left (fun recorded update =>
                              recordContractUpdate (fst update) (snd update) recorded)
                           updates recorded) in
    NoDup (List.map fst m')
    /\ forall key,
         orderedMapGet m' key
         = match lastUpdate updates key with
           | Some v => Some v
           | None => orderedMapGet m key
           end.
Proof.
  induction updates as [|[location value] rest IH]; intros m recorded Hm Hnd.
  - simpl. rewrite Hm. auto.
  - simpl.
    specialize (IH (orderedMapSet m (contractKey location) value)
                   (recordContractUpdate location value recorded)).
    destruct IH as [Hnd' Hget].
    + unfold recordContractUpdate. simpl. rewrite Hm. reflexivity.
    + by apply orderedMapSet_NoDup.
    + split; [exact Hnd'|]. intros key. rewrite Hget, orderedMapSet_Get.
      unfold lastUpdate at 2. unfold lastUpdateFrom. simpl.
      fold (lastUpdateFrom rest key
              (if bool_decide (contractKey location = key) then Some value else None)).
      rewrite lastUpdateFrom_start. fold (lastUpdate rest key).
      destruct (lastUpdate rest key); [reflexivity|].
      destruct (bool_decide (contractKey location = key)); reflexivity.
Qed.

Lemma commit_fold_read (m : list (StorageKey * option Value)) :
  forall (inter : Interpreter) address domain key,
    NoDup (List.map fst m) ->
    ReadStored (fold_left (fun inter pair =>
                             writeContractUpdate inter (fst pair) (snd pair))
                          m inter)
               address domain key
    = if bool_decide (domain = StorageDomainContract) then
        match orderedMapGet m (address, key) with
        | Some contractValue => contractValue
        | None => ReadStored inter address domain key
        end
      else ReadStored inter address domain key.
Proof.
  assert (Hwrite : forall (inter : Interpreter) k v address domain key,
             ReadStored (writeContractUpdate inter k v) address domain key
             = if bool_decide ((KeyAddress k, StorageDomainContract,
                                StringStorageMapKey (Key k))
                               = (address, domain, key))
               then v else ReadStored inter address domain key).
  { intros inter k v address domain key.
    assert (Heq : writeContractUpdate inter k v
                  = WriteValue inter (KeyAddress k) StorageDomainContract
                               (StringStorageMapKey (Key k)) v)
      by (destruct v; reflexivity).
    rewrite Heq. case_bool_decide as Hk.
    - injection Hk as <- <- <-. apply ReadStored_WriteValue_same.
    - by apply ReadStored_WriteValue_other. }
  induction m as [|[k v] rest IH]; intros inter address domain key Hnd.
  - simpl. case_bool_decide; reflexivity.
  - simpl in Hnd. apply NoDup_cons in Hnd as [Hfresh Hnd].
    simpl. rewrite IH by exact Hnd. rewrite Hwrite.
    destruct k as [a n]. unfold KeyAddress, Key, StringStorageMapKey. simpl.
    destruct (decide (domain = StorageDomainContract)) as [->|Hd].
    + rewrite !bool_decide_eq_true_2 by reflexivity.
      destruct (decide ((a, n) = (address, key))) as [Hk|Hk].
      * rewrite (bool_decide_eq_true_2 _ Hk). injection Hk as <- <-.
        rewrite bool_decide_eq_true_2 by reflexivity.
        assert (Hnone : orderedMapGet rest (a, n) = None).
        { destruct (orderedMapGet rest (a, n)) eqn:Hg; [|reflexivity].
          exfalso. apply Hfresh.
          assert (Hc : orderedMapContains rest (a, n) = true)
            by (apply orderedMapContains_Get; congruence).
          unfold orderedMapContains in Hc.
          apply existsb_exists in Hc as ([k' v'] & Hin & Hk').
          apply bool_decide_eq_true in Hk'. simpl in Hk'. subst k'.
          apply list_elem_of_In, in_map_iff. exists ((a, n), v'). auto. }
        rewrite Hnone. reflexivity.
      * rewrite (bool_decide_eq_false_2 _ Hk).
        rewrite bool_decide_eq_false_2 by congruence. reflexivity.
    + rewrite !(bool_decide_eq_false_2 (domain = StorageDomainContract)) by exact Hd.
      rewrite bool_decide_eq_false_2 by congruence. reflexivity.
Qed.

(** A location counts as recorded exactly when an update for it was
    recorded, a removal (nil) included; on a fresh [Storage] nothing is
    recorded. *)
Theorem contractUpdateRecorded_iff
    (updates : list (AddressLocation * option Value))
    (location : AddressLocation) :
  contractUpdateRecorded location (recordAll updates) = true <->
  exists contractValue, (location, contractValue) ∈ updates.
Proof.
  pose proof (recordAll_from updates [] None eq_refl (NoDup_nil_2)) as [_ Hget].
  cbv zeta in Hget. fold (recordAll updates) in Hget.
  specialize (Hget (contractKey location)). simpl in Hget.
  assert (Hrec : contractUpdateRecorded location (recordAll updates) = true
                 <-> lastUpdate updates (contractKey location) <> None).
  { unfold contractUpdateRecorded.
    destruct (recordAll updates) as [m|]; simpl in Hget.
    - fold (contractKey location). rewrite orderedMapContains_Get, Hget.
      destruct (lastUpdate updates (contractKey location)); split; congruence.
    - destruct (lastUpdate updates (contractKey location)); [discriminate|].
      split; [discriminate | congruence]. }
  rewrite Hrec. unfold lastUpdate. clear.
  assert (Hgen : forall start,
             lastUpdateFrom updates (contractKey location) start <> None
             <-> start <> None
                 \/ exists contractValue, (location, contractValue) ∈ updates).
  { unfold lastUpdateFrom.
    induction updates as [|[l v] rest IH]; intros start; simpl.
    - split; [auto|]. intros [? | (? & Hin)]; [assumption|].
      by apply elem_of_nil in Hin.
    - rewrite IH. destruct (decide (contractKey l = contractKey location)) as [Hk|Hk].
      + rewrite (bool_decide_eq_true_2 _ Hk).
        assert (l = location) as ->.
        { destruct l, location. unfold contractKey, NewStorageKey in Hk.
          simpl in Hk. congruence. }
        split.
        * intros _. right. exists v. apply elem_of_cons. auto.
        * intros _. left. discriminate.
      + rewrite (bool_decide_eq_false_2 _ Hk). split.
        * intros [? | (c & Hin)]; [auto|]. right. exists c.
          apply elem_of_cons. auto.
        * intros [? | (c & Hin)]; [auto|].
          apply elem_of_cons in Hin as [[= <- <-] | Hin]; [contradiction|].
          right. exists c. exact Hin. }
  rewrite Hgen. split; [intros [? | ?]; [contradiction | assumption] | auto].
Qed.

(** Committing the recorded contract updates leaves, for every contract
    location, the value of its last recorded update in the contract domain
    of its account (nothing, when that update was a removal); a contract
    for which no update was recorded, and every other domain, reads as
    before. *)
Theorem commitContractUpdates_last_write_wins
    (updates : list (AddressLocation * option Value)) (inter : Interpreter)
    (address : Address) (domain : string) (name : string) :
  ReadStored (commitContractUpdates (recordAll updates) inter)
             address domain (StringStorageMapKey name)
  = if bool_decide (domain = StorageDomainContract) then
      match lastUpdate updates (NewStorageKey address name) with
      | Some contractValue => contractValue
      | None => ReadStored inter address domain (StringStorageMapKey name)
      end
    else ReadStored inter address domain (StringStorageMapKey name).
Proof.
  pose proof (recordAll_from updates [] None eq_refl (NoDup_nil_2)) as [Hnd Hget].
  cbv zeta in Hnd, Hget. fold (recordAll updates) in Hnd, Hget.
  specialize (Hget (NewStorageKey address name)). simpl in Hget.
  unfold commitContractUpdates.
  destruct (recordAll updates) as [m|]; simpl in Hnd, Hget.
  - rewrite commit_fold_read by exact Hnd.
    unfold StringStorageMapKey, NewStorageKey in *. rewrite Hget.
    destruct (lastUpdate updates (address, name)); reflexivity.
  - destruct (lastUpdate updates (NewStorageKey address name)); [discriminate|].
    case_bool_decide; reflexivity.
Qed.

End ContractUpdates.

(** ** The cache of domain storage maps *)

Section DomainStorageMaps.

(** interpreter.DomainStorageMap (held by pointer), the account storage
    [accountStorageV2] with its own state, and the interpreter handed
    through to it. *)
Context {DomainStorageMap AccountStorageV2 Inter : Type}.

(** [accountStorageV2.GetDomainStorageMap(inter, address, domain,
    createIfNotExists)]: may return nil, and may create the map. *)
Variable accountStorageV2_GetDomainStorageMap :
  AccountStorageV2 -> Inter -> Address -> string -> bool ->
  option DomainStorageMap * AccountStorageV2.

(** The fields of [Storage] that [GetDomainStorageMap] uses; the cache is a
    Go map, nil until the first entry is cached. *)
Record Storage : Type := mkStorage {
  cachedDomainStorageMaps : option (gmap StorageKey DomainStorageMap);
  accountStorageV2 : AccountStorageV2
}.






End DomainStorageMaps.

(** ** The contract function executor
       (runtime/contract_function_executor.go) *)

Section ContractFunctionExecutor.

(** cadence.Value (an argument as the caller gives it), sema.Type,
    interpreter.Value, the error of a conversion and the runtime's
    [Error]. *)
Context {CadenceValue SemaType InterpreterValue ConversionError RuntimeError : Type}.

(** [executor.convertArgument(inter, argument, argumentType,
    locationRange)] and [newError(err, location, codesAndPrograms)], for
    the interpreter, location and programs of the execution. *)
Variable convertArgument :
  CadenceValue -> SemaType -> InterpreterValue + ConversionError.
Variable newError : ConversionError -> RuntimeError.

(** How the conversion of the arguments in [execute] ends: with the slice
    of interpreter arguments (nil where nothing was assigned), with the
    error returned, or with the Go runtime's index-out-of-range panic. *)
Inductive ArgumentsOutcome : Type :=
| Converted (interpreterArguments : list (option InterpreterValue))
| ReturnedError (err : RuntimeError)
| IndexOutOfRange (index length : nat).

(** The loop [for i, argumentType := range executor.argumentTypes] of
    [execute], from index [i] on. *)
Fixpoint convertLoop (arguments : list CadenceValue) (i : nat)
    (argumentTypes : list SemaType)
    (interpreterArguments : list (option InterpreterValue))
  : ArgumentsOutcome :=
  match argumentTypes with
  | [] => Converted interpreterArguments
  | argumentType :: rest =>
      match arguments !! i with
      | None => IndexOutOfRange i (length arguments)
      | Some argument =>
          match convertArgument argument argumentType with
          | inr err => ReturnedError (newError err)
          | inl value =>
              convertLoop arguments (S i) rest
                          (<[i := Some value]> interpreterArguments)
          end
      end
  end.

(** [interpreterArguments := make([]interpreter.Value,
    len(executor.arguments))] followed by the loop. *)
Definition convertArguments (arguments : list CadenceValue)
    (argumentTypes : list SemaType) : ArgumentsOutcome :=
  convertLoop arguments 0 argumentTypes (replicate (length arguments) None).

(** The conversions of the arguments paired with their types, in order, up
    to the first that fails. *)
Fixpoint convertPairs (arguments : list CadenceValue)
    (argumentTypes : list SemaType)
  : list InterpreterValue + ConversionError :=
  match arguments, argumentTypes with
  | argument :: arguments', argumentType :: argumentTypes' =>
      match convertArgument argument argumentType with
      | inr err => inr err
      | inl value =>
          match convertPairs arguments' argumentTypes' with
          | inr err => inr err
          | inl values => inl (value :: values)
          end
      end
  | _, _ => inl []
  end.

Lemma convertLoop_spec (done : list InterpreterValue) :
  forall (before : list CadenceValue) (arguments : list CadenceValue)
         (argumentTypes : list SemaType),
    length before = length done ->
    convertLoop (before ++ arguments) (length done) argumentTypes
                (List.map Some done ++ replicate (length arguments) None)
    = match convertPairs arguments argumentTypes with
      | inr err => ReturnedError (newError err)
      | inl values =>
          if Nat.leb (length argumentTypes) (length arguments) then
            Converted (List.map Some (done ++ values)
                       ++ replicate (length arguments - length argumentTypes) None)
          else IndexOutOfRange (length before + length arguments)
                               (length before + length arguments)
      end.
Proof.
  intros before arguments argumentTypes. revert done before arguments.
  induction argumentTypes as [|argumentType rest IH];
    intros done before arguments Hlen.
  - destruct arguments; simpl; repeat rewrite app_nil_r; reflexivity.
  - simpl. rewrite <- Hlen.
    destruct arguments as [|argument arguments'].
    + rewrite app_nil_r, lookup_ge_None_2 by lia. simpl.
      rewrite Nat.add_0_r. reflexivity.
    + rewrite list_lookup_middle by reflexivity. simpl.
      destruct (convertArgument argument argumentType) as [value|err];
        [|reflexivity].
      replace (<[length before := Some value]>
                 (List.map Some done ++ None :: replicate (length arguments') None))
        with (List.map Some (done ++ [value])
              ++ replicate (length arguments') None).
      2:{ rewrite List.map_app, <- app_assoc. simpl.
          replace (length before) with (length (List.map Some done) + 0)%nat
            by (rewrite length_map; lia).
          rewrite insert_app_r. reflexivity. }
      replace (S (length before)) with (length (done ++ [value]))
        by (rewrite length_app; simpl; lia).
      replace (before ++ argument :: arguments')
        with ((before ++ [argument]) ++ arguments')
        by (rewrite <- app_assoc; reflexivity).
      rewrite IH by (rewrite !length_app; simpl; lia).
      destruct (convertPairs arguments' rest) as [values|err]; [|reflexivity].
      rewrite <- app_assoc. simpl.
      destruct (Nat.leb (length rest) (length arguments')); [reflexivity|].
      rewrite !length_app. simpl. f_equal; lia.
Qed.

(** The interpreter arguments are the conversions of the arguments that
    have a type, followed by nil for every argument beyond the types: when
    fewer types than arguments are given the surplus arguments are passed
    as nil, not converted and not rejected.  When more types than arguments
    are given and the arguments convert, the loop indexes past the
    arguments and the Go runtime panics (the deferred [Recover] of
    [execute] receives the panic).  The first conversion that fails
    ends the loop with its error, before any index can run out of range. *)
Theorem convertArguments_spec
    (arguments : list CadenceValue) (argumentTypes : list SemaType) :
  convertArguments arguments argumentTypes
  = match convertPairs arguments argumentTypes with
    | inr err => ReturnedError (newError err)
    | inl values =>
        if Nat.leb (length argumentTypes) (length arguments) then
          Converted (List.map Some values
                     ++ replicate (length arguments - length argumentTypes) None)
        else IndexOutOfRange (length arguments) (length arguments)
    end.
Proof.
  unfold convertArguments.
  exact (convertLoop_spec [] [] arguments argumentTypes eq_refl).
Qed.

End ContractFunctionExecutor.

End Runtime.
